(** * ATen/native/Cross.cpp: axis resolution, broadcasting and dispatch of
    the cross product, as a shallow embedding.

    Tensors are handles into a store of tensor implementations; the
    functions of Cross.cpp run in a state-and-error monad over that store.
    An exception leaves the store as it was when it was thrown. *)

From stdpp Require Import gmap list.

Local Open Scope Z_scope.

(** ** Errors and results *)

(** The failures the pipeline can raise.  Cross.cpp raises them through
    TORCH_CHECK; the names are the ones of the error taxonomy. *)
Inductive Error : Type :=
  | NoSuitableAxis       (* "no dimension of size 3 in input" *)
  | IncompatibleShapes   (* infer_size: sizes do not broadcast *)
  | AxisOutOfRange       (* maybe_wrap_dim: dimension out of range *)
  | AxisExtentMismatch   (* "dimension ... does not have size 3" *)
  | UnsupportedDevice    (* no kernel registered for the device type *)
  | UndefinedTensor.     (* a handle that names no tensor *)

Inductive Result (A : Type) : Type :=
  | OK (a : A)
  | Err (e : Error).
Arguments OK {A} a.
Arguments Err {A} e.

#[global] Instance Error_eq_dec : EqDecision Error.
Proof. solve_decision. Defined.

(** ** _default_cross_dim (Cross.cpp, lines 13-24) *)

(** The loop [for (auto i : c10::irange(sizes.size()))]: [i] is the index of
    the head of [sizes]. *)
Fixpoint first_size3 (sizes : list Z) (i : Z) : Result Z :=
  match sizes with
  | [] => Err NoSuitableAxis
  | s :: rest => if s =? 3 then OK i else first_size3 rest (i + 1)
  end.

Definition _default_cross_dim (dimension : option Z) (sizes : list Z) : Result Z :=
  match dimension with
  | Some d => OK d
  | None => first_size3 sizes 0
  end.

(** ** Element arithmetic

    Elements are 64-bit signed integers (a [kLong] tensor); every operation
    wraps around. *)

Definition wrap64 (z : Z) : Z := (z + 2 ^ 63) mod 2 ^ 64 - 2 ^ 63.
Definition mul64 (x y : Z) : Z := wrap64 (x * y).
Definition sub64 (x y : Z) : Z := wrap64 (x - y).
Definition neg64 (x : Z) : Z := wrap64 (- x).

(** ** Tensors and the store *)

(** Modelled from the spec: the device tag of an array ([c10::DeviceType] is
    missing): the host CPU or an accelerator. *)
Inductive DeviceType : Type := CPU | CUDA.

#[global] Instance DeviceType_eq_dec : EqDecision DeviceType.
Proof. solve_decision. Defined.

(** Modelled from the spec: an array ([at::Tensor] and [c10::TensorImpl] are
    missing).  What a tensor handle points to: its extents, its device type
    and its elements by multi-index. *)
Record TensorImpl : Type := mkImpl {
  impl_sizes : list Z;
  impl_device : DeviceType;
  impl_data : list Z → Z
}.

(** A [Tensor] is a handle; copying a [Tensor] copies the handle. *)
Abbreviation Tensor := nat.

(** What a call leaves behind besides the store: the views it has made, the
    warnings of the diagnostic sink and the kernels it has dispatched. *)
Inductive Event : Type :=
  | EvExpand (self : Tensor) (size : list Z) (view : Tensor)
  | EvResizeWarning (out : Tensor)
  | EvKernel (device : DeviceType) (out a b : Tensor) (dim : Z).

(** The store of tensors, the device types a kernel is registered for
    (process-wide, fixed at startup) and the events so far. *)
Record World : Type := mkWorld {
  heap : gmap nat TensorImpl;
  registry : DeviceType → bool;
  trace : list Event
}.

(** ** The monad: state passing with exceptions *)

Definition M (A : Type) : Type := World → Result A * World.

#[global] Instance M_ret : MRet M := λ A a w, (OK a, w).
#[global] Instance M_bind : MBind M := λ A B f m w,
  match m w with
  | (OK a, w') => f a w'
  | (Err e, w') => (Err e, w')
  end.

Definition throw {A : Type} (e : Error) : M A := λ w, (Err e, w).

Definition lift {A : Type} (r : Result A) : M A :=
  match r with
  | OK a => mret a
  | Err e => throw e
  end.

Definition TORCH_CHECK (cond : bool) (e : Error) : M unit :=
  if cond then mret tt else throw e.

Definition deref (t : Tensor) : M TensorImpl := λ w,
  match heap w !! t with
  | Some impl => (OK impl, w)
  | None => (Err UndefinedTensor, w)
  end.

Definition store (t : Tensor) (impl : TensorImpl) : M unit := λ w,
  (OK tt, mkWorld (<[t := impl]> (heap w)) (registry w) (trace w)).

Definition alloc (impl : TensorImpl) : M Tensor := λ w,
  let t := fresh (dom (heap w)) in
  (OK t, mkWorld (<[t := impl]> (heap w)) (registry w) (trace w)).

Definition emit (ev : Event) : M unit := λ w,
  (OK tt, mkWorld (heap w) (registry w) (trace w ++ [ev])).

Definition registered (device : DeviceType) : M bool := λ w,
  (OK (registry w device), w).

(** Accessors of [Tensor]. *)
Definition sizes (t : Tensor) : M (list Z) := impl ← deref t; mret (impl_sizes impl).
Definition dim (t : Tensor) : M Z :=
  impl ← deref t; mret (Z.of_nat (length (impl_sizes impl))).
Definition device_type (t : Tensor) : M DeviceType :=
  impl ← deref t; mret (impl_device impl).

(** [IntArrayRef::equals]. *)
Definition equals (a b : list Z) : bool := bool_decide (a = b).

Definition numel (shape : list Z) : Z := foldr Z.mul 1 shape.

(** ** Helpers of ATen that Cross.cpp calls *)

(** Modelled from the spec: [maybe_wrap_dim] (c10/core/WrapDimMinimal.h is
    missing).  The valid range of an axis is the rank; a negative axis wraps
    by [axis + rank]; after resolution [0 <= axis < rank]. *)
Definition maybe_wrap_dim (d rank : Z) : Result Z :=
  if (- rank <=? d) && (d <? rank)
  then OK (if d <? 0 then d + rank else d)
  else Err AxisOutOfRange.

(** Right-alignment: the shape padded with leading 1s to [n] axes. *)
Definition pad_leading (n : nat) (shape : list Z) : list Z :=
  replicate (n - length shape) 1 ++ shape.

(** The extents of two aligned shapes, position by position. *)
Fixpoint infer_aligned (a b : list Z) : Result (list Z) :=
  match a, b with
  | x :: a', y :: b' =>
      if (x =? y) || (x =? 1) || (y =? 1)
      then match infer_aligned a' b' with
           | OK rest => OK (Z.max x y :: rest)
           | Err e => Err e
           end
      else Err IncompatibleShapes
  | _, _ => OK []
  end.

(** Modelled from the spec: [infer_size] (ATen/ExpandUtils.cpp is missing).
    The shapes are right-aligned, the shorter padded with leading 1s; at each
    aligned position the extent is [max a b] if [a == b || a == 1 || b == 1],
    and the shapes are incompatible otherwise. *)
Definition infer_size (a b : list Z) : Result (list Z) :=
  let ndim := (length a `max` length b)%nat in
  infer_aligned (pad_leading ndim a) (pad_leading ndim b).

(** Modelled from the spec: [Tensor::size(dim)], the extent at an axis of the
    tensor (ATen/core/TensorBase.h is missing). *)
Definition size (t : Tensor) (d : Z) : M Z :=
  impl ← deref t;
  d' ← lift (maybe_wrap_dim d (Z.of_nat (length (impl_sizes impl))));
  match impl_sizes impl !! Z.to_nat d' with
  | Some extent => mret extent
  | None => throw AxisOutOfRange
  end.

(** The index in the source of the element a view shows at [idx]: an axis of
    extent 1 is stretched, the leading axes the source lacks are dropped. *)
Fixpoint source_index (src : list Z) (idx : list Z) : list Z :=
  match src, idx with
  | s :: src', i :: idx' => (if s =? 1 then 0 else i) :: source_index src' idx'
  | _, _ => []
  end.

Definition expand_data (src size : list Z) (data : list Z → Z) : list Z → Z :=
  λ idx, data (source_index src (drop (length size - length src) idx)).

(** Modelled from the spec: [Tensor::expand(size)], a new view of logical
    shape [size] on the device of its source (ATen/native/TensorShape.cpp is
    missing).  The view is a tensor of its own, with the elements its source
    shows when the view is made. *)
Definition expand (self : Tensor) (size : list Z) : M Tensor :=
  impl ← deref self;
  view ← alloc (mkImpl size (impl_device impl)
                       (expand_data (impl_sizes impl) size (impl_data impl)));
  emit (EvExpand self size view);;
  mret view.

(** Modelled from the spec: [at::empty(size, options)], a fresh tensor. *)
Definition at_empty (size : list Z) (device : DeviceType) : M Tensor :=
  alloc (mkImpl size device (λ _, 0)).

(** Modelled from the spec: [at::native::resize_output] (section 4.3;
    ATen/native/Resize.h is missing).  Nothing happens when the shape is
    already the target; otherwise a warning is emitted if [out] had one or
    more elements, and [out] takes the target shape. *)
Definition resize_output (out : Tensor) (shape : list Z) : M unit :=
  impl ← deref out;
  if equals (impl_sizes impl) shape then mret tt
  else
    (if negb (numel (impl_sizes impl) =? 0)
     then emit (EvResizeWarning out) else mret tt);;
    store out (mkImpl shape (impl_device impl) (impl_data impl)).

(** ** The kernel and its dispatch *)

(** Modelled from the spec: the cross-product kernel (section 4.5; the
    per-device kernels are missing).  With [(a0,a1,a2)] and [(b0,b1,b2)] the
    elements of the inputs along [dim] at [idx]:
    out0 = a1*b2 - a2*b1, out1 = a2*b0 - a0*b2, out2 = a0*b1 - a1*b0. *)
Definition cross_at (a b : list Z → Z) (d : nat) (idx : list Z) : Z :=
  let a0 := a (<[d := 0]> idx) in
  let a1 := a (<[d := 1]> idx) in
  let a2 := a (<[d := 2]> idx) in
  let b0 := b (<[d := 0]> idx) in
  let b1 := b (<[d := 1]> idx) in
  let b2 := b (<[d := 2]> idx) in
  match idx !! d with
  | Some 0 => sub64 (mul64 a1 b2) (mul64 a2 b1)
  | Some 1 => sub64 (mul64 a2 b0) (mul64 a0 b2)
  | Some 2 => sub64 (mul64 a0 b1) (mul64 a1 b0)
  | _ => 0
  end.

(** The kernel writes the cross product of [a] and [b] along [d] to [out]. *)
Definition cross_kernel (out a b : Tensor) (d : Z) : M unit :=
  ia ← deref a;
  ib ← deref b;
  io ← deref out;
  store out (mkImpl (impl_sizes io) (impl_device io)
                    (cross_at (impl_data ia) (impl_data ib) (Z.to_nat d))).

(** Modelled from the spec: the dispatch stub [cross_stub] (section 4.4;
    ATen/native/DispatchStub.h is missing).  The kernel registered for the
    device type is called; there is none for an unregistered device type. *)
Definition cross_stub (device : DeviceType) (out a b : Tensor) (d : Z) : M unit :=
  known ← registered device;
  if (known : bool)
  then emit (EvKernel device out a b d);; cross_kernel out a b d
  else throw UnsupportedDevice.

(** ** linalg_cross_out (Cross.cpp, lines 42-70) *)

Definition linalg_cross_out (input other : Tensor) (dimension : Z) (out : Tensor)
  : M Tensor :=
  device1 ← device_type input;
  input_size ← sizes input;
  other_size ← sizes other;
  out_size ← lift (infer_size input_size other_size);
  input_broadcasted ←
    (if negb (equals input_size out_size) then expand input out_size
     else mret input);
  other_broadcasted ←
    (if negb (equals other_size out_size) then expand other out_size
     else mret other);
  input_dim ← dim input;
  d ← lift (maybe_wrap_dim dimension input_dim);
  extent ← size input_broadcasted d;
  TORCH_CHECK (extent =? 3) AxisExtentMismatch;;
  resize_output out out_size;;
  cross_stub device1 out input_broadcasted other_broadcasted d;;
  mret out.

(** ** linalg_cross (lines 36-40), cross (26-29), cross_out (31-34) *)

Definition linalg_cross (input other : Tensor) (dimension : Z) : M Tensor :=
  device ← device_type input;
  out ← at_empty [0] device;
  linalg_cross_out input other dimension out;;
  mret out.

Definition cross (input other : Tensor) (dimension : option Z) : M Tensor :=
  input_sizes ← sizes input;
  d ← lift (_default_cross_dim dimension input_sizes);
  linalg_cross input other d.

Definition cross_out (input other : Tensor) (dimension : option Z) (out : Tensor)
  : M Tensor :=
  input_sizes ← sizes input;
  d ← lift (_default_cross_dim dimension input_sizes);
  linalg_cross_out input other d out.

(** ** Which steps can touch an existing tensor, which can reject the call *)

(** The errors by which the call rejects its arguments. *)
Definition validation_error (e : Error) : Prop :=
  e = IncompatibleShapes ∨ e = AxisOutOfRange ∨ e = AxisExtentMismatch.

(** A step that only adds tensors to the store. *)
Definition grows {A : Type} (m : M A) : Prop :=
  ∀ w r w', m w = (r, w') → heap w ⊆ heap w'.

(** A step that never rejects the call. *)
Definition accepts {A : Type} (m : M A) : Prop :=
  ∀ w e w', m w = (Err e, w') → ¬ validation_error e.

(** A computation that leaves the tensors it was given as they were whenever
    it rejects the call. *)
Definition atomic {A : Type} (m : M A) : Prop :=
  ∀ w e w', m w = (Err e, w') → validation_error e → heap w ⊆ heap w'.


(** ** Which device types a computation looks at *)

(** Two tensors with the same extents and elements; their device types are
    compared only where [same_device] holds. *)
Definition impl_agree (same_device : Prop) (i1 i2 : TensorImpl) : Prop :=
  impl_sizes i1 = impl_sizes i2 ∧ impl_data i1 = impl_data i2 ∧
  (same_device → impl_device i1 = impl_device i2).

(** Two worlds that differ at most in the device types of tensors other than
    [input], which is a tensor of both. *)
Definition agree (input : Tensor) (w1 w2 : World) : Prop :=
  registry w1 = registry w2 ∧ trace w1 = trace w2 ∧
  is_Some (heap w1 !! input) ∧
  ∀ t : Tensor, option_Forall2 (impl_agree (t = input)) (heap w1 !! t) (heap w2 !! t).

(** Two computations that, from worlds that agree, return the same result
    and leave worlds that agree. *)
Definition related {A : Type} (input : Tensor) (m1 m2 : M A) : Prop :=
  ∀ w1 w2, agree input w1 w2 →
    (m1 w1).1 = (m2 w2).1 ∧ agree input (m1 w1).2 (m2 w2).2.

(** The world in which tensor [t] is on [device]. *)
Definition set_device (t : Tensor) (device : DeviceType) (w : World) : World :=
  mkWorld (alter (λ impl, mkImpl (impl_sizes impl) device (impl_data impl)) t (heap w))
          (registry w) (trace w).

(** ** Concrete tensors for the examples *)

Definition vector (l : list Z) : list Z → Z :=
  λ idx, match idx with
         | [i] => default 0 (l !! Z.to_nat i)
         | _ => 0
         end.

Definition matrix (l : list (list Z)) : list Z → Z :=
  λ idx, match idx with
         | [i; j] => default 0 (default [] (l !! Z.to_nat i) !! Z.to_nat j)
         | _ => 0
         end.

Definition every_device : DeviceType → bool := λ _, true.

(** Tensor 0 is a vector of 3, tensor 1 a 3x3 matrix, tensor 2 a 4x3
    matrix, tensor 3 a 2x3 matrix, all on the CPU. *)
Definition example_world : World :=
  mkWorld (<[0%nat := mkImpl [3] CPU (vector [1; 0; 0])]>
          (<[1%nat := mkImpl [3; 3] CPU (matrix [[0; 1; 0]; [0; 0; 1]; [1; 0; 0]])]>
          (<[2%nat := mkImpl [4; 3] CPU (matrix [[1; 2; 3]; [4; 5; 6]; [7; 8; 9]; [1; 1; 1]])]>
          (<[3%nat := mkImpl [2; 3] CPU (matrix [[1; 0; 0]; [0; 1; 0]])]> ∅))))
          every_device [].

(** ** The outcome of the expansion step *)

(** The operand the kernel gets for tensor [t] and the world after the
    expansion step of [t] (Cross.cpp, lines 50-58): [t] itself in the same
    world if its shape is the target, a new view otherwise. *)
Definition expanded (t : Tensor) (impl : TensorImpl) (out_size : list Z) (w : World)
  : Tensor * World :=
  if decide (impl_sizes impl = out_size) then (t, w)
  else
    let view := fresh (dom (heap w)) in
    (view,
     mkWorld (<[view := mkImpl out_size (impl_device impl)
                          (expand_data (impl_sizes impl) out_size (impl_data impl))]>
                (heap w))
             (registry w) (trace w ++ [EvExpand t out_size view])).

(** The warnings of [resize_output] for an output of shape [shape]. *)
Definition resize_warnings (out : Tensor) (shape out_size : list Z) : list Event :=
  if decide (shape = out_size) then []
  else if numel shape =? 0 then [] else [EvResizeWarning out].

(** The world after [resize_output out shape] when [out] was [impl]. *)
Definition resized (out : Tensor) (impl : TensorImpl) (shape : list Z) (w : World)
  : World :=
  mkWorld (if decide (impl_sizes impl = shape) then heap w
           else <[out := mkImpl shape (impl_device impl) (impl_data impl)]> (heap w))
          (registry w)
          (trace w ++ resize_warnings out (impl_sizes impl) shape).

(** ** Broadcast compatibility (section 3 of the specification) *)

(** The extent of [shape] at position [k] counted from the last axis, the
    missing leading axes having extent 1. *)
Definition aligned (shape : list Z) (k : nat) : Z :=
  default 1 (reverse shape !! k).

(** After right-aligning, every paired extent is equal or one of the pair
    is 1. *)
Definition broadcast_compatible (a b : list Z) : Prop :=
  ∀ k : nat, aligned a k = aligned b k ∨ aligned a k = 1 ∨ aligned b k = 1.

(** The number of discard warnings among [evs]. *)
Definition is_resize_warning (ev : Event) : bool :=
  match ev with
  | EvResizeWarning _ => true
  | _ => false
  end.

Definition count_resize_warnings (evs : list Event) : nat :=
  length (List.filter is_resize_warning evs).

(** Reading a tensor of a world: its shape, and its element at [idx]. *)
Definition shape_of (w : World) (t : Tensor) : option (list Z) :=
  impl_sizes <$> heap w !! t.

Definition element (w : World) (t : Tensor) (idx : list Z) : option Z :=
  (λ impl, impl_data impl idx) <$> heap w !! t.

(** The elements of the operand the kernel gets for a tensor. *)
Definition operand_data (impl : TensorImpl) (out_size : list Z) : list Z → Z :=
  if decide (impl_sizes impl = out_size) then impl_data impl
  else expand_data (impl_sizes impl) out_size (impl_data impl).

(** ** The outcomes of linalg_cross_out *)

(** The world the kernel leaves: [out] holds the cross product along [d] of
    the two operands, and the dispatch is recorded. *)
Definition kernel_written (device : DeviceType) (out a b : Tensor) (d : Z)
    (shape : list Z) (out_device : DeviceType) (da db : list Z → Z) (w : World) : World :=
  mkWorld (<[out := mkImpl shape out_device (cross_at da db (Z.to_nat d))]> (heap w))
          (registry w) (trace w ++ [EvKernel device out a b d]).

(** What a call leaves in a world: every tensor other than [out] as it was,
    [out] still a tensor on its device, the registry as it was, and the
    events so far followed by new ones. *)
Definition only_out (out : Tensor) (w w' : World) : Prop :=
  (∀ (t : Tensor) (x : TensorImpl), t ≠ out → heap w !! t = Some x → heap w' !! t = Some x) ∧
  (∀ oi : TensorImpl, heap w !! out = Some oi →
     ∃ oi', heap w' !! out = Some oi' ∧ impl_device oi' = impl_device oi) ∧
  registry w' = registry w ∧
  ∃ evs : list Event, trace w' = trace w ++ evs.

(** A computation every run of which is within [P], whatever its outcome. *)
Definition within {A : Type} (P : World → World → Prop) (m : M A) : Prop :=
  ∀ w r w', m w = (r, w') → P w w'.

(** No kernel has been dispatched among [evs]. *)
Definition is_kernel (ev : Event) : bool :=
  match ev with
  | EvKernel _ _ _ _ _ => true
  | _ => false
  end.

(** The number of kernels dispatched among [evs]. *)
Definition count_kernels (evs : list Event) : nat :=
  length (List.filter is_kernel evs).

(** The events of the expansion step of a tensor. *)
Definition expand_events (t : Tensor) (impl : TensorImpl) (out_size : list Z)
    (w : World) : list Event :=
  if decide (impl_sizes impl = out_size) then []
  else [EvExpand t out_size (expanded t impl out_size w).1].

(** The world in which the output of [linalg_cross] has been allocated:
    [at::empty({0}, input.options())]. *)
Definition with_empty_output (device : DeviceType) (w : World) : World :=
  mkWorld (<[fresh (dom (heap w)) := mkImpl [0] device (λ _, 0)]> (heap w))
          (registry w) (trace w).

(** Tensor 0 is a 2x3 matrix and tensor 1 a 1x3 matrix, both on the CPU. *)
Definition rows_world : World :=
  mkWorld (<[0%nat := mkImpl [2; 3] CPU (matrix [[1; 2; 3]; [4; 5; 6]])]>
          (<[1%nat := mkImpl [1; 3] CPU (matrix [[7; 8; 9]])]> ∅))
          every_device [].
(** * Properties *)

(** ** Lemmas on the scan *)

Lemma first_size3_found sizes : ∀ (i : Z) (k : nat),
  sizes !! k = Some 3 →
  (∀ j : nat, (j < k)%nat → sizes !! j ≠ Some 3) →
  first_size3 sizes i = OK (i + Z.of_nat k).
Proof.
  induction sizes as [|s rest IH]; intros i k Hk Hfirst; [done|].
  destruct k as [|k]; simpl in *.
  - injection Hk as ->. simpl. f_equal. lia.
  - destruct (Z.eqb_spec s 3) as [->|_].
    + exfalso. apply (Hfirst 0%nat); [lia|done].
    + rewrite (IH (i + 1) k Hk).
      * f_equal. lia.
      * intros j Hj. apply (Hfirst (S j)). lia.
Qed.

Lemma first_size3_sound sizes : ∀ (i r : Z),
  first_size3 sizes i = OK r →
  ∃ k : nat, r = i + Z.of_nat k ∧ sizes !! k = Some 3 ∧
             ∀ j : nat, (j < k)%nat → sizes !! j ≠ Some 3.
Proof.
  induction sizes as [|s rest IH]; intros i r H; [done|].
  simpl in H. destruct (Z.eqb_spec s 3) as [->|Hs].
  - injection H as <-. exists 0%nat. split; [lia|]. split; [done|]. intros j Hj; lia.
  - destruct (IH _ _ H) as (k & -> & Hk & Hfirst).
    exists (S k). split; [lia|]. split; [done|].
    intros [|j] Hj; simpl; [congruence|]. apply Hfirst. lia.
Qed.

Lemma first_size3_none sizes : ∀ (i : Z),
  first_size3 sizes i = Err NoSuitableAxis ↔ 3 ∉ sizes.
Proof.
  induction sizes as [|s rest IH]; intros i; simpl.
  - split; [intros _; apply not_elem_of_nil | done].
  - destruct (Z.eqb_spec s 3) as [->|Hs].
    + split; [done|]. intros H. exfalso. apply H. left.
    + rewrite IH, not_elem_of_cons.
      split; [intros H; split; [congruence|done] | by intros [_ H]].
Qed.

Lemma first_size3_error sizes : ∀ (i : Z) (e : Error),
  first_size3 sizes i = Err e → e = NoSuitableAxis.
Proof.
  induction sizes as [|s rest IH]; intros i e; simpl.
  - congruence.
  - destruct (s =? 3); [done|]. apply IH.
Qed.

(** C2: an explicit axis is returned as it is, whatever the shape (no
    wrapping, no validation); with no explicit axis the result is the index
    of the first dimension of extent 3.  When dimensions [i < j] both have
    extent 3, the result is never [j]: it is the first index of extent 3,
    which is at most [i], and is [i] when no dimension before [i] has
    extent 3. *)
Theorem default_cross_dim_first_match :
  (∀ (d : Z) (sizes : list Z), _default_cross_dim (Some d) sizes = OK d) ∧
  (∀ (sizes : list Z) (i : nat),
      sizes !! i = Some 3 →
      (∀ k : nat, (k < i)%nat → sizes !! k ≠ Some 3) →
      _default_cross_dim None sizes = OK (Z.of_nat i)) ∧
  (∀ (sizes : list Z) (i j : nat),
      (i < j)%nat → sizes !! i = Some 3 → sizes !! j = Some 3 →
      (∀ k : nat, (k < i)%nat → sizes !! k ≠ Some 3) →
      _default_cross_dim None sizes = OK (Z.of_nat i) ∧
      _default_cross_dim None sizes ≠ OK (Z.of_nat j)) ∧
  (∀ (sizes : list Z) (i j : nat),
      (i < j)%nat → sizes !! i = Some 3 → sizes !! j = Some 3 →
      ∃ r : nat, _default_cross_dim None sizes = OK (Z.of_nat r) ∧
                 (r ≤ i)%nat ∧ sizes !! r = Some 3 ∧
                 ∀ k : nat, (k < r)%nat → sizes !! k ≠ Some 3).
Proof.
  split; [done|]. split; [|split].
  - intros sizes i Hi Hfirst. unfold _default_cross_dim.
    by rewrite (first_size3_found sizes 0 i Hi Hfirst).
  - intros sizes i j Hij Hi Hj Hfirst. unfold _default_cross_dim.
    rewrite (first_size3_found sizes 0 i Hi Hfirst). simpl.
    split; [done|]. intros [=]. lia.
  - intros sizes i j Hij Hi Hj. unfold _default_cross_dim.
    destruct (first_size3 sizes 0) as [r|e] eqn:Hscan.
    + destruct (first_size3_sound _ _ _ Hscan) as (k & -> & Hk & Hfirst).
      exists k. split; [done|]. split; [|done].
      destruct (decide (k ≤ i)%nat) as [|Hlt]; [done|].
      destruct (Hfirst i); [lia|done].
    + rewrite (first_size3_error _ _ _ Hscan) in Hscan.
      apply first_size3_none in Hscan. destruct Hscan.
      by eapply list_elem_of_lookup_2.
Qed.

Lemma default_cross_dim_first_match_witness :
  _default_cross_dim (Some (-7)) [2; 5] = OK (-7) ∧
  _default_cross_dim None [2; 3; 4; 3] = OK 1 ∧
  _default_cross_dim None [2; 3; 4; 3] ≠ OK 3.
Proof.
  destruct default_cross_dim_first_match as (Hexpl & _ & Htie & _).
  split; [apply Hexpl|].
  apply (Htie [2; 3; 4; 3] 1%nat 3%nat); [lia|reflexivity|reflexivity|].
  intros [|k] Hk; [discriminate|lia].
Defined.


(** ** Running the monad *)

Lemma bind_run {A B : Type} (m : M A) (f : A → M B) (w : World) :
  (m ≫= f) w = match m w with
               | (OK a, w') => f a w'
               | (Err e, w') => (Err e, w')
               end.
Proof. reflexivity. Qed.

Lemma ret_run {A : Type} (a : A) (w : World) : (mret a : M A) w = (OK a, w).
Proof. reflexivity. Qed.

Lemma run_ok {A : Type} (m : M A) (w : World) (a : A) :
  (m w).1 = OK a → m w = (OK a, (m w).2).
Proof. destruct (m w) as [r w']. simpl. by intros ->. Qed.

Lemma run_err {A : Type} (m : M A) (w : World) (e : Error) :
  (m w).1 = Err e → m w = (Err e, (m w).2).
Proof. destruct (m w) as [r w']. simpl. by intros ->. Qed.

Lemma deref_run (t : Tensor) (w : World) (impl : TensorImpl) :
  heap w !! t = Some impl → deref t w = (OK impl, w).
Proof. intros H. unfold deref. by rewrite H. Qed.

Lemma deref_undefined (t : Tensor) (w : World) :
  heap w !! t = None → deref t w = (Err UndefinedTensor, w).
Proof. intros H. unfold deref. by rewrite H. Qed.

Lemma sizes_run (t : Tensor) (w : World) (impl : TensorImpl) :
  heap w !! t = Some impl → sizes t w = (OK (impl_sizes impl), w).
Proof. intros H. unfold sizes. by rewrite bind_run, (deref_run _ _ _ H). Qed.

Lemma dim_run (t : Tensor) (w : World) (impl : TensorImpl) :
  heap w !! t = Some impl →
  dim t w = (OK (Z.of_nat (length (impl_sizes impl))), w).
Proof. intros H. unfold dim. by rewrite bind_run, (deref_run _ _ _ H). Qed.

Lemma device_type_run (t : Tensor) (w : World) (impl : TensorImpl) :
  heap w !! t = Some impl → device_type t w = (OK (impl_device impl), w).
Proof. intros H. unfold device_type. by rewrite bind_run, (deref_run _ _ _ H). Qed.

Lemma lift_run {A : Type} (r : Result A) (w : World) :
  lift r w = match r with OK a => (OK a, w) | Err e => (Err e, w) end.
Proof. by destruct r. Qed.

(** C3: the scan fails, and then with NoSuitableAxis, exactly when no axis
    is given and no dimension has extent 3; cross and cross_out then fail
    with the same error, and nothing has been allocated, resized or
    dispatched. *)
Theorem default_cross_dim_no_suitable_axis :
  (∀ (dimension : option Z) (shape : list Z),
      _default_cross_dim dimension shape = Err NoSuitableAxis ↔
      dimension = None ∧ 3 ∉ shape) ∧
  (∀ (dimension : option Z) (shape : list Z) (e : Error),
      _default_cross_dim dimension shape = Err e → e = NoSuitableAxis) ∧
  (∀ (w : World) (input other out : Tensor) (impl : TensorImpl),
      heap w !! input = Some impl →
      3 ∉ impl_sizes impl →
      cross input other None w = (Err NoSuitableAxis, w) ∧
      cross_out input other None out w = (Err NoSuitableAxis, w)).
Proof.
  split; [|split].
  - intros [d|] shape; simpl.
    + split; [done|]. by intros [? _].
    + rewrite first_size3_none. split; [done|]. by intros [_ ?].
  - intros [d|] shape e; simpl; [done|]. apply first_size3_error.
  - intros w input other out impl Hin Hno.
    apply (first_size3_none _ 0) in Hno.
    unfold cross, cross_out.
    rewrite !bind_run, (sizes_run _ _ _ Hin), !bind_run, !lift_run.
    simpl. by rewrite Hno.
Qed.

Lemma default_cross_dim_no_suitable_axis_witness :
  let w := mkWorld {[ 0%nat := mkImpl [2; 4] CPU (λ _, 0) ]} (λ _, true) [] in
  cross 0%nat 0%nat None w = (Err NoSuitableAxis, w) ∧
  cross_out 0%nat 0%nat None 0%nat w = (Err NoSuitableAxis, w).
Proof.
  intros w.
  destruct default_cross_dim_no_suitable_axis as (_ & _ & Hfatal).
  apply (Hfatal w 0%nat 0%nat 0%nat (mkImpl [2; 4] CPU (λ _, 0))).
  - reflexivity.
  - simpl. rewrite !not_elem_of_cons. repeat split; try lia. apply not_elem_of_nil.
Defined.

(** ** Atomicity of rejection *)

Create HintDb grows discriminated.
Create HintDb accepts discriminated.

Lemma bind_inv {A B : Type} (m : M A) (f : A → M B) w r w' :
  (m ≫= f) w = (r, w') →
  (∃ a w1, m w = (OK a, w1) ∧ f a w1 = (r, w')) ∨
  (∃ e, m w = (Err e, w') ∧ r = Err e).
Proof.
  rewrite bind_run. destruct (m w) as [[a|e] w1]; intros H.
  - left. by exists a, w1.
  - right. exists e. by injection H as <- <-.
Qed.

Lemma grows_ret {A : Type} (a : A) : grows (mret a).
Proof. intros w r w' [= <- <-]. done. Qed.

Lemma grows_throw {A : Type} (e : Error) : grows (@throw A e).
Proof. intros w r w' [= <- <-]. done. Qed.

Lemma grows_lift {A : Type} (r : Result A) : grows (lift r).
Proof. destruct r; [apply grows_ret | apply grows_throw]. Qed.

Lemma grows_deref (t : Tensor) : grows (deref t).
Proof.
  intros w r w'. unfold deref. destruct (heap w !! t); by intros [= <- <-].
Qed.

Lemma grows_alloc (impl : TensorImpl) : grows (alloc impl).
Proof.
  intros w r w' [= <- <-]. simpl.
  apply insert_subseteq, not_elem_of_dom, is_fresh.
Qed.

Lemma grows_emit (ev : Event) : grows (emit ev).
Proof. intros w r w' [= <- <-]. done. Qed.

Lemma grows_bind {A B : Type} (m : M A) (f : A → M B) :
  grows m → (∀ a, grows (f a)) → grows (m ≫= f).
Proof.
  intros Hm Hf w r w' H.
  destruct (bind_inv _ _ _ _ _ H) as [(a & w1 & H1 & H2)|(e & H1 & _)].
  - etrans; [by eapply Hm | by eapply Hf].
  - by eapply Hm.
Qed.

Lemma grows_if {A : Type} (b : bool) (m1 m2 : M A) :
  grows m1 → grows m2 → grows (if b then m1 else m2).
Proof. by destruct b. Qed.

#[local] Hint Resolve grows_ret grows_throw grows_lift grows_deref grows_alloc
  grows_emit grows_if : grows.
#[local] Hint Extern 2 (grows (_ ≫= _)) => apply grows_bind; [|intros ?] : grows.

Lemma grows_sizes (t : Tensor) : grows (sizes t).
Proof. unfold sizes. auto with grows. Qed.

Lemma grows_dim (t : Tensor) : grows (dim t).
Proof. unfold dim. auto with grows. Qed.

Lemma grows_device_type (t : Tensor) : grows (device_type t).
Proof. unfold device_type. auto with grows. Qed.

Lemma grows_size (t : Tensor) (d : Z) : grows (size t d).
Proof.
  unfold size. apply grows_bind; [auto with grows|intros impl].
  apply grows_bind; [auto with grows|intros d'].
  destruct (_ !! _); auto with grows.
Qed.

Lemma grows_expand (t : Tensor) (shape : list Z) : grows (expand t shape).
Proof. unfold expand. auto 10 with grows. Qed.

Lemma grows_TORCH_CHECK (cond : bool) (e : Error) : grows (TORCH_CHECK cond e).
Proof. unfold TORCH_CHECK. auto with grows. Qed.

#[local] Hint Resolve grows_sizes grows_dim grows_device_type grows_size
  grows_expand grows_TORCH_CHECK : grows.

Lemma accepts_ret {A : Type} (a : A) : accepts (mret a).
Proof. intros w e w' [=]. Qed.

Lemma accepts_deref (t : Tensor) : accepts (deref t).
Proof.
  intros w e w'. unfold deref. destruct (heap w !! t); intros [= <- _].
  by intros [?|[?|?]].
Qed.

Lemma accepts_store (t : Tensor) (impl : TensorImpl) : accepts (store t impl).
Proof. intros w e w' [=]. Qed.

Lemma accepts_emit (ev : Event) : accepts (emit ev).
Proof. intros w e w' [=]. Qed.

Lemma accepts_registered (device : DeviceType) : accepts (registered device).
Proof. intros w e w' [=]. Qed.

Lemma accepts_unsupported {A : Type} : accepts (@throw A UnsupportedDevice).
Proof. intros w e w' [= <- _]. by intros [?|[?|?]]. Qed.

Lemma accepts_bind {A B : Type} (m : M A) (f : A → M B) :
  accepts m → (∀ a, accepts (f a)) → accepts (m ≫= f).
Proof.
  intros Hm Hf w e w' H.
  destruct (bind_inv _ _ _ _ _ H) as [(a & w1 & H1 & H2)|(e' & H1 & [= ->])].
  - by eapply Hf.
  - by eapply Hm.
Qed.

Lemma accepts_if {A : Type} (b : bool) (m1 m2 : M A) :
  accepts m1 → accepts m2 → accepts (if b then m1 else m2).
Proof. by destruct b. Qed.

#[local] Hint Resolve accepts_ret accepts_deref accepts_store accepts_emit
  accepts_registered accepts_unsupported accepts_if : accepts.
#[local] Hint Extern 2 (accepts (_ ≫= _)) => apply accepts_bind; [|intros ?] : accepts.

Lemma accepts_resize_output (out : Tensor) (shape : list Z) :
  accepts (resize_output out shape).
Proof. unfold resize_output. auto 10 with accepts. Qed.

Lemma accepts_cross_kernel (out a b : Tensor) (d : Z) :
  accepts (cross_kernel out a b d).
Proof. unfold cross_kernel. auto 10 with accepts. Qed.

Lemma accepts_cross_stub (device : DeviceType) (out a b : Tensor) (d : Z) :
  accepts (cross_stub device out a b d).
Proof.
  unfold cross_stub. apply accepts_bind; [auto with accepts|intros known].
  apply accepts_if; [|auto with accepts].
  apply accepts_bind; [auto with accepts|intros _]. apply accepts_cross_kernel.
Qed.

#[local] Hint Resolve accepts_resize_output accepts_cross_stub : accepts.

Lemma atomic_accepts {A : Type} (m : M A) : accepts m → atomic m.
Proof. intros Hm w e w' H He. by destruct (Hm _ _ _ H). Qed.

Lemma atomic_bind {A B : Type} (m : M A) (f : A → M B) :
  grows m → (∀ a, atomic (f a)) → atomic (m ≫= f).
Proof.
  intros Hm Hf w e w' H He.
  destruct (bind_inv _ _ _ _ _ H) as [(a & w1 & H1 & H2)|(e' & H1 & _)].
  - etrans; [by eapply Hm | by eapply Hf].
  - by eapply Hm.
Qed.

Lemma linalg_cross_out_atomic (input other : Tensor) (dimension : Z) (out : Tensor) :
  atomic (linalg_cross_out input other dimension out).
Proof.
  unfold linalg_cross_out.
  do 10 (apply atomic_bind; [auto with grows|intros ?]).
  apply atomic_accepts. auto 10 with accepts.
Qed.

(** C9: when linalg_cross_out fails with IncompatibleShapes, with an axis out
    of range or with AxisExtentMismatch, the output tensor the caller
    supplied has the shape, device and elements it had before the call: every
    check comes before resize_output and the kernel. *)
Theorem linalg_cross_out_error_leaves_out
    (input other : Tensor) (dimension : Z) (out : Tensor)
    (w w' : World) (e : Error) (impl : TensorImpl) :
  linalg_cross_out input other dimension out w = (Err e, w') →
  e = IncompatibleShapes ∨ e = AxisOutOfRange ∨ e = AxisExtentMismatch →
  heap w !! out = Some impl →
  heap w' !! out = Some impl.
Proof.
  intros Hrun He Hout.
  pose proof (linalg_cross_out_atomic _ _ _ _ _ _ _ Hrun He) as Hsub.
  by eapply lookup_weaken.
Qed.

Lemma linalg_cross_out_error_leaves_out_witness :
  let w' := (linalg_cross_out 2%nat 0%nat 0 3%nat example_world).2 in
  heap w' !! 3%nat = Some (mkImpl [2; 3] CPU (matrix [[1; 0; 0]; [0; 1; 0]])).
Proof.
  intros w'.
  apply (linalg_cross_out_error_leaves_out 2%nat 0%nat 0 3%nat example_world w'
           AxisExtentMismatch).
  - apply run_err. vm_compute. reflexivity.
  - right. right. reflexivity.
  - reflexivity.
Defined.

(** ** Independence from the device types of the other tensors *)

Section Related.
Variable input : Tensor.

Lemma agree_dom (w1 w2 : World) :
  agree input w1 w2 → dom (heap w1) = dom (heap w2).
Proof.
  intros (_ & _ & _ & H). apply set_eq. intros t.
  rewrite !elem_of_dom. destruct (H t); by rewrite <- ?not_eq_None_Some.
Qed.

Lemma agree_fresh (w1 w2 : World) :
  agree input w1 w2 → fresh (dom (heap w1)) ≠ input.
Proof.
  intros (_ & _ & Hlive & _) Heq.
  apply (is_fresh (dom (heap w1))). rewrite Heq. by apply elem_of_dom.
Qed.

Lemma related_ret {A : Type} (a : A) : related input (mret a) (mret a).
Proof. by intros w1 w2 H. Qed.

Lemma related_throw {A : Type} (e : Error) :
  related input (@throw A e) (@throw A e).
Proof. by intros w1 w2 H. Qed.

Lemma related_lift {A : Type} (r : Result A) : related input (lift r) (lift r).
Proof. destruct r; [apply related_ret | apply related_throw]. Qed.

Lemma related_bind {A B : Type} (m1 m2 : M A) (f1 f2 : A → M B) :
  related input m1 m2 → (∀ a, related input (f1 a) (f2 a)) →
  related input (m1 ≫= f1) (m2 ≫= f2).
Proof.
  intros Hm Hf w1 w2 H. rewrite !bind_run.
  destruct (Hm w1 w2 H) as [Hr Hw].
  destruct (m1 w1) as [[a1|e1] w1'], (m2 w2) as [[a2|e2] w2']; simpl in *;
    try discriminate.
  - injection Hr as ->. by apply Hf.
  - by injection Hr as ->.
Qed.

Lemma related_if {A : Type} (b : bool) (m1 m2 m1' m2' : M A) :
  related input m1 m1' → related input m2 m2' →
  related input (if b then m1 else m2) (if b then m1' else m2').
Proof. by destruct b. Qed.

Lemma related_deref_bind {B : Type} (t : Tensor) (f1 f2 : TensorImpl → M B) :
  (∀ i1 i2, impl_agree (t = input) i1 i2 → related input (f1 i1) (f2 i2)) →
  related input (deref t ≫= f1) (deref t ≫= f2).
Proof.
  intros Hf w1 w2 H. rewrite !bind_run. unfold deref.
  destruct H as (Hreg & Htr & Hlive & Hheap).
  destruct (Hheap t) as [i1 i2 Hi|]; [|done].
  by apply Hf.
Qed.

Lemma related_alloc (i1 i2 : TensorImpl) :
  impl_sizes i1 = impl_sizes i2 → impl_data i1 = impl_data i2 →
  related input (alloc i1) (alloc i2).
Proof.
  intros Hs Hd w1 w2 H. unfold alloc. simpl.
  rewrite <- (agree_dom _ _ H). split; [done|].
  pose proof (agree_fresh _ _ H) as Hne.
  destruct H as (Hreg & Htr & Hlive & Hheap).
  repeat split; simpl; try done.
  - by rewrite lookup_insert_ne.
  - intros t. destruct (decide (fresh (dom (heap w1)) = t)) as [<-|Ht].
    + rewrite !lookup_insert_eq. by constructor.
    + rewrite !lookup_insert_ne by done. apply Hheap.
Qed.

Lemma related_store (t : Tensor) (i1 i2 : TensorImpl) :
  impl_agree (t = input) i1 i2 → related input (store t i1) (store t i2).
Proof.
  intros Hi w1 w2 (Hreg & Htr & Hlive & Hheap). unfold store. simpl.
  repeat split; simpl; try done.
  - apply lookup_insert_is_Some. destruct (decide (t = input)); auto.
  - intros t'. destruct (decide (t = t')) as [<-|Ht].
    + rewrite !lookup_insert_eq. by constructor.
    + rewrite !lookup_insert_ne by done. apply Hheap.
Qed.

Lemma related_emit (ev : Event) : related input (emit ev) (emit ev).
Proof.
  intros w1 w2 (Hreg & Htr & Hlive & Hheap). unfold emit. simpl.
  repeat split; simpl; try done. by rewrite Htr.
Qed.

Lemma related_registered (device : DeviceType) :
  related input (registered device) (registered device).
Proof.
  intros w1 w2 H. unfold registered. simpl. split; [|done].
  destruct H as (-> & _). done.
Qed.

Lemma related_sizes (t : Tensor) : related input (sizes t) (sizes t).
Proof.
  apply related_deref_bind. intros i1 i2 (-> & _). apply related_ret.
Qed.

Lemma related_dim (t : Tensor) : related input (dim t) (dim t).
Proof.
  apply related_deref_bind. intros i1 i2 (-> & _). apply related_ret.
Qed.

(** The one place a device type is read: that of [input]. *)
Lemma related_device_type : related input (device_type input) (device_type input).
Proof.
  apply related_deref_bind. intros i1 i2 (_ & _ & ->); [|done]. apply related_ret.
Qed.

Lemma related_size (t : Tensor) (d : Z) : related input (size t d) (size t d).
Proof.
  apply related_deref_bind. intros i1 i2 (-> & _).
  apply related_bind; [apply related_lift|intros d'].
  destruct (_ !! _); [apply related_ret | apply related_throw].
Qed.

Lemma related_expand (t : Tensor) (shape : list Z) :
  related input (expand t shape) (expand t shape).
Proof.
  apply related_deref_bind. intros i1 i2 (Hs & Hd & _).
  apply related_bind; [apply related_alloc; simpl; congruence|intros view].
  apply related_bind; [apply related_emit|intros _]. apply related_ret.
Qed.

Lemma related_TORCH_CHECK (cond : bool) (e : Error) :
  related input (TORCH_CHECK cond e) (TORCH_CHECK cond e).
Proof. destruct cond; [apply related_ret | apply related_throw]. Qed.

Lemma related_resize_output (out : Tensor) (shape : list Z) :
  related input (resize_output out shape) (resize_output out shape).
Proof.
  apply related_deref_bind. intros i1 i2 (Hs & Hd & Hdev). rewrite Hs.
  apply related_if; [apply related_ret|].
  apply related_bind.
  - apply related_if; [apply related_emit | apply related_ret].
  - intros _. by apply related_store.
Qed.

Lemma related_cross_kernel (out a b : Tensor) (d : Z) :
  related input (cross_kernel out a b d) (cross_kernel out a b d).
Proof.
  apply related_deref_bind. intros a1 a2 (_ & Ha & _).
  apply related_deref_bind. intros b1 b2 (_ & Hb & _).
  apply related_deref_bind. intros o1 o2 (Hs & _ & Hdev).
  apply related_store. rewrite Ha, Hb. by repeat split.
Qed.

Lemma related_cross_stub (device : DeviceType) (out a b : Tensor) (d : Z) :
  related input (cross_stub device out a b d) (cross_stub device out a b d).
Proof.
  apply related_bind; [apply related_registered|intros known].
  apply related_if; [|apply related_throw].
  apply related_bind; [apply related_emit|intros _]. apply related_cross_kernel.
Qed.

Lemma related_linalg_cross_out (other : Tensor) (dimension : Z) (out : Tensor) :
  related input (linalg_cross_out input other dimension out)
                (linalg_cross_out input other dimension out).
Proof.
  unfold linalg_cross_out.
  apply related_bind; [apply related_device_type|intros device1].
  apply related_bind; [apply related_sizes|intros input_size].
  apply related_bind; [apply related_sizes|intros other_size].
  apply related_bind; [apply related_lift|intros out_size].
  apply related_bind;
    [apply related_if; [apply related_expand | apply related_ret]|intros ib].
  apply related_bind;
    [apply related_if; [apply related_expand | apply related_ret]|intros ob].
  apply related_bind; [apply related_dim|intros input_dim].
  apply related_bind; [apply related_lift|intros d].
  apply related_bind; [apply related_size|intros extent].
  apply related_bind; [apply related_TORCH_CHECK|intros _].
  apply related_bind; [apply related_resize_output|intros _].
  apply related_bind; [apply related_cross_stub|intros _].
  apply related_ret.
Qed.

Lemma agree_set_device (other : Tensor) (device : DeviceType) (w : World) :
  input ≠ other → is_Some (heap w !! input) →
  agree input w (set_device other device w).
Proof.
  intros Hne Hlive. repeat split; try done. intros t. simpl.
  destruct (decide (other = t)) as [<-|Ht].
  - rewrite lookup_alter_eq. destruct (heap w !! other); constructor.
    repeat split; simpl. intros ->. done.
  - rewrite lookup_alter_ne by done. destruct (heap w !! t); constructor.
    by repeat split.
Qed.
End Related.

(** ** The successful run, step by step *)

Lemma expansion_step_run (t : Tensor) (impl : TensorImpl) (out_size : list Z) (w : World) :
  heap w !! t = Some impl →
  (if negb (equals (impl_sizes impl) out_size) then expand t out_size else mret t) w
  = (OK (expanded t impl out_size w).1, (expanded t impl out_size w).2).
Proof.
  intros Ht. unfold expanded, equals.
  destruct (decide (impl_sizes impl = out_size)) as [Heq|Hne].
  - by rewrite bool_decide_eq_true_2.
  - rewrite bool_decide_eq_false_2 by done. simpl.
    unfold expand. rewrite bind_run, (deref_run _ _ _ Ht). reflexivity.
Qed.

Lemma expanded_grows t impl out_size w :
  heap w ⊆ heap (expanded t impl out_size w).2.
Proof.
  unfold expanded. destruct (decide _); simpl; [done|].
  apply insert_subseteq, not_elem_of_dom, is_fresh.
Qed.

Lemma expanded_registry t impl out_size w :
  registry (expanded t impl out_size w).2 = registry w.
Proof. unfold expanded. by destruct (decide _). Qed.

Lemma expanded_sizes t impl out_size w :
  heap w !! t = Some impl →
  ∃ view, heap (expanded t impl out_size w).2 !! (expanded t impl out_size w).1
          = Some view ∧ impl_sizes view = out_size.
Proof.
  intros Ht. unfold expanded. destruct (decide _) as [Heq|Hne]; simpl.
  - by exists impl.
  - eexists. by rewrite lookup_insert_eq.
Qed.

Lemma resize_output_run (out : Tensor) (shape : list Z) (w : World) (oi : TensorImpl) :
  heap w !! out = Some oi →
  resize_output out shape w = (OK (), resized out oi shape w).
Proof.
  intros Hout. unfold resize_output, resized, resize_warnings, equals.
  rewrite bind_run, (deref_run _ _ _ Hout).
  destruct (decide (impl_sizes oi = shape)) as [Heq|Hne].
  - rewrite bool_decide_eq_true_2 by done. rewrite ret_run, app_nil_r.
    by destruct w.
  - rewrite bool_decide_eq_false_2 by done. rewrite bind_run.
    destruct (numel (impl_sizes oi) =? 0); simpl; [|done].
    unfold store. by rewrite app_nil_r.
Qed.

Lemma resized_lookup (out : Tensor) (oi : TensorImpl) (shape : list Z) (w : World)
    (t : Tensor) (x : TensorImpl) :
  heap w !! out = Some oi →
  heap (resized out oi shape w) !! t = Some x →
  ∃ x', heap w !! t = Some x' ∧ impl_data x' = impl_data x.
Proof.
  intros Hout. unfold resized. simpl.
  destruct (decide (impl_sizes oi = shape)); [by exists x|].
  destruct (decide (out = t)) as [<-|Hne].
  - rewrite lookup_insert_eq. intros [= <-]. by exists oi.
  - rewrite lookup_insert_ne by done. by exists x.
Qed.

Lemma cross_stub_ok (device : DeviceType) (out a b : Tensor) (d : Z) (w w' : World) :
  cross_stub device out a b d w = (OK (), w') →
  ∃ ia ib io : TensorImpl,
    registry w device = true ∧
    heap w !! a = Some ia ∧ heap w !! b = Some ib ∧ heap w !! out = Some io ∧
    w' = mkWorld (<[out := mkImpl (impl_sizes io) (impl_device io)
                             (cross_at (impl_data ia) (impl_data ib) (Z.to_nat d))]>
                    (heap w))
                 (registry w) (trace w ++ [EvKernel device out a b d]).
Proof.
  unfold cross_stub, registered. rewrite bind_run.
  destruct (registry w device); [|done].
  unfold cross_kernel, emit, deref, store, mbind, M_bind. simpl.
  destruct (heap w !! a) as [ia|]; simpl; [|done].
  destruct (heap w !! b) as [ib|]; simpl; [|done].
  destruct (heap w !! out) as [io|]; simpl; [|done].
  intros [= <-]. by exists ia, ib, io.
Qed.


(** ** Broadcast shape inference *)

Lemma aligned_cons (x : Z) (shape : list Z) (k : nat) :
  aligned (x :: shape) k =
  if decide (k < length shape)%nat then aligned shape k
  else if decide (k = length shape) then x else 1.
Proof.
  unfold aligned. rewrite reverse_cons.
  destruct (decide (k < length shape)%nat) as [Hlt|Hge].
  - rewrite lookup_app_l by (by rewrite length_reverse). done.
  - rewrite lookup_app_r by (rewrite length_reverse; lia).
    rewrite length_reverse.
    destruct (decide (k = length shape)) as [->|Hne].
    + by rewrite Nat.sub_diag.
    + destruct (k - length shape)%nat as [|n] eqn:Hk; [lia|done].
Qed.

Lemma aligned_nil (k : nat) : aligned [] k = 1.
Proof. done. Qed.

Lemma aligned_beyond (shape : list Z) (k : nat) :
  (length shape ≤ k)%nat → aligned shape k = 1.
Proof.
  intros Hk. unfold aligned.
  rewrite lookup_ge_None_2 by (by rewrite length_reverse). done.
Qed.

Lemma aligned_pad_leading (n : nat) (shape : list Z) (k : nat) :
  aligned (pad_leading n shape) k = aligned shape k.
Proof.
  unfold pad_leading. induction (n - length shape)%nat as [|m IH]; [done|].
  simpl. rewrite aligned_cons. destruct (decide _) as [Hlt|Hge]; [done|].
  rewrite length_app, length_replicate in Hge.
  rewrite (aligned_beyond shape) by lia. by destruct (decide _).
Qed.

Lemma length_pad_leading (n : nat) (shape : list Z) :
  (length shape ≤ n)%nat → length (pad_leading n shape) = n.
Proof.
  intros H. unfold pad_leading. rewrite length_app, length_replicate. lia.
Qed.

Lemma extents_agree_iff (x y : Z) :
  (x =? y) || (x =? 1) || (y =? 1) = true ↔ x = y ∨ x = 1 ∨ y = 1.
Proof. rewrite !orb_true_iff, !Z.eqb_eq. tauto. Qed.

Lemma infer_aligned_ok (a : list Z) : ∀ (b s : list Z),
  length a = length b → infer_aligned a b = OK s →
  length s = length a ∧
  ∀ k, aligned s k = Z.max (aligned a k) (aligned b k) ∧
       (aligned a k = aligned b k ∨ aligned a k = 1 ∨ aligned b k = 1).
Proof.
  induction a as [|x a IH]; intros [|y b] s Hlen; try done.
  - intros [= <-]. split; [done|]. intros k. rewrite !aligned_nil. auto.
  - simpl. destruct ((x =? y) || (x =? 1) || (y =? 1)) eqn:Hxy; [|done].
    apply extents_agree_iff in Hxy.
    destruct (infer_aligned a b) as [rest|e] eqn:Hrest; [|done].
    intros [= <-]. injection Hlen as Hlen.
    destruct (IH b rest Hlen Hrest) as [Hlr Hk].
    split; [simpl; by rewrite Hlr|]. intros k.
    rewrite !aligned_cons, Hlr, <- Hlen.
    destruct (decide (k < length a)%nat); [apply Hk|].
    destruct (decide (k = length a)); [done|]. auto.
Qed.

Lemma infer_aligned_err (a : list Z) : ∀ (b : list Z) (e : Error),
  length a = length b → infer_aligned a b = Err e →
  e = IncompatibleShapes ∧
  ∃ k, ¬ (aligned a k = aligned b k ∨ aligned a k = 1 ∨ aligned b k = 1).
Proof.
  induction a as [|x a IH]; intros [|y b] e Hlen; try done.
  simpl. injection Hlen as Hlen.
  destruct ((x =? y) || (x =? 1) || (y =? 1)) eqn:Hxy.
  - destruct (infer_aligned a b) as [rest|e'] eqn:Hrest; [done|].
    intros [= <-]. destruct (IH b e' Hlen Hrest) as [-> (k & Hk)].
    split; [done|].
    assert (k < length a)%nat as Hlt.
    { destruct (decide (k < length a)%nat); [done|]. exfalso. apply Hk.
      rewrite !aligned_beyond by lia. auto. }
    exists k. rewrite !aligned_cons, <- Hlen. by repeat case_decide.
  - intros [= <-]. split; [done|]. exists (length a).
    rewrite !aligned_cons, <- Hlen.
    repeat case_decide; lia.
Qed.

Lemma infer_size_lengths (a b : list Z) :
  length (pad_leading (length a `max` length b) a) =
  length (pad_leading (length a `max` length b) b).
Proof. rewrite !length_pad_leading; lia. Qed.

Lemma infer_size_ok (a b s : list Z) :
  infer_size a b = OK s →
  length s = (length a `max` length b)%nat ∧
  broadcast_compatible a b ∧
  ∀ k, aligned s k = Z.max (aligned a k) (aligned b k).
Proof.
  unfold infer_size. intros H.
  destruct (infer_aligned_ok _ _ _ (infer_size_lengths a b) H) as [Hlen Hk].
  rewrite length_pad_leading in Hlen by lia.
  split; [done|].
  split; intros k; destruct (Hk k) as [Hmax Hc];
    by rewrite !aligned_pad_leading in *.
Qed.

Lemma infer_size_err (a b : list Z) (e : Error) :
  infer_size a b = Err e → e = IncompatibleShapes ∧ ¬ broadcast_compatible a b.
Proof.
  unfold infer_size. intros H.
  destruct (infer_aligned_err _ _ _ (infer_size_lengths a b) H) as [-> (k & Hk)].
  split; [done|]. intros Hc. apply Hk.
  rewrite !aligned_pad_leading. apply Hc.
Qed.

(** ** The run of linalg_cross_out up to its checks *)

Lemma maybe_wrap_dim_range (d rank r : Z) :
  maybe_wrap_dim d rank = OK r → 0 ≤ r < rank.
Proof. unfold maybe_wrap_dim. repeat case_match; intros [= <-]; lia. Qed.

Lemma maybe_wrap_dim_id (d rank : Z) : 0 ≤ d < rank → maybe_wrap_dim d rank = OK d.
Proof.
  intros H. unfold maybe_wrap_dim.
  rewrite andb_true_intro by (split; lia).
  by rewrite (proj2 (Z.ltb_ge d 0)) by lia.
Qed.

Lemma linalg_cross_out_checks (input other : Tensor) (dimension : Z) (out : Tensor)
    (w : World) (ii io : TensorImpl) (out_size : list Z) (d : Z) :
  heap w !! input = Some ii → heap w !! other = Some io →
  infer_size (impl_sizes ii) (impl_sizes io) = OK out_size →
  maybe_wrap_dim dimension (Z.of_nat (length (impl_sizes ii))) = OK d →
  let e1 := expanded input ii out_size w in
  let e2 := expanded other io out_size e1.2 in
  ∃ extent, out_size !! Z.to_nat d = Some extent ∧
    linalg_cross_out input other dimension out w =
    if extent =? 3
    then (resize_output out out_size ≫= λ _,
          cross_stub (impl_device ii) out e1.1 e2.1 d ≫= λ _, mret out) e2.2
    else (Err AxisExtentMismatch, e2.2).
Proof.
  intros Hin Hot Hinf Hwrap e1 e2.
  destruct (infer_size_ok _ _ _ Hinf) as (Hlen & _ & _).
  pose proof (maybe_wrap_dim_range _ _ _ Hwrap) as Hd.
  destruct (lookup_lt_is_Some_2 out_size (Z.to_nat d)) as [extent Hext]; [lia|].
  exists extent. split; [done|].
  unfold linalg_cross_out.
  rewrite bind_run, (device_type_run _ _ _ Hin), bind_run, (sizes_run _ _ _ Hin),
    bind_run, (sizes_run _ _ _ Hot), bind_run, lift_run, Hinf.
  rewrite bind_run, (expansion_step_run _ _ _ _ Hin). fold e1.
  assert (heap e1.2 !! other = Some io) as Hot1
    by (eapply lookup_weaken; [exact Hot | apply expanded_grows]).
  rewrite bind_run, (expansion_step_run _ _ _ _ Hot1). fold e2.
  assert (heap e2.2 !! input = Some ii) as Hin2.
  { eapply lookup_weaken; [exact Hin|]. etrans; apply expanded_grows. }
  rewrite bind_run, (dim_run _ _ _ Hin2), bind_run, lift_run, Hwrap.
  destruct (expanded_sizes input ii out_size w Hin) as (view & Hview & Hvs).
  fold e1 in Hview.
  assert (heap e2.2 !! e1.1 = Some view) as Hview2
    by (eapply lookup_weaken; [exact Hview | apply expanded_grows]).
  rewrite bind_run. unfold size at 1.
  rewrite bind_run, (deref_run _ _ _ Hview2), bind_run, lift_run, Hvs.
  rewrite maybe_wrap_dim_id by lia. rewrite Hext, ret_run, bind_run.
  unfold TORCH_CHECK. by destruct (extent =? 3).
Qed.

Lemma linalg_cross_out_ok (input other : Tensor) (dimension : Z) (out : Tensor)
    (w w' : World) (r : Tensor) :
  linalg_cross_out input other dimension out w = (OK r, w') →
  ∃ (ii io oi : TensorImpl) (out_size : list Z) (d : Z),
    heap w !! input = Some ii ∧ heap w !! other = Some io ∧
    infer_size (impl_sizes ii) (impl_sizes io) = OK out_size ∧
    maybe_wrap_dim dimension (Z.of_nat (length (impl_sizes ii))) = OK d ∧
    out_size !! Z.to_nat d = Some 3 ∧
    r = out ∧
    let e1 := expanded input ii out_size w in
    let e2 := expanded other io out_size e1.2 in
    heap e2.2 !! out = Some oi ∧
    registry w (impl_device ii) = true ∧
    trace w' = trace e2.2 ++ resize_warnings out (impl_sizes oi) out_size
                 ++ [EvKernel (impl_device ii) out e1.1 e2.1 d] ∧
    dom (heap w') = dom (heap e2.2) ∧
    (∀ t, t ≠ out → heap w' !! t = heap e2.2 !! t) ∧
    ∃ va vb : TensorImpl,
      heap e2.2 !! e1.1 = Some va ∧ heap e2.2 !! e2.1 = Some vb ∧
      heap w' !! out =
      Some (mkImpl out_size (impl_device oi)
                   (cross_at (impl_data va) (impl_data vb) (Z.to_nat d))).
Proof.
  intros Hrun.
  destruct (heap w !! input) as [ii|] eqn:Hin.
  2:{ revert Hrun. unfold linalg_cross_out, device_type.
      by rewrite !bind_run, (deref_undefined _ _ Hin). }
  destruct (heap w !! other) as [io|] eqn:Hot.
  2:{ revert Hrun. unfold linalg_cross_out.
      rewrite bind_run, (device_type_run _ _ _ Hin), bind_run,
        (sizes_run _ _ _ Hin). unfold sizes.
      by rewrite !bind_run, (deref_undefined _ _ Hot). }
  destruct (infer_size (impl_sizes ii) (impl_sizes io)) as [out_size|e] eqn:Hinf.
  2:{ revert Hrun. unfold linalg_cross_out.
      by rewrite bind_run, (device_type_run _ _ _ Hin), bind_run,
        (sizes_run _ _ _ Hin), bind_run, (sizes_run _ _ _ Hot), bind_run,
        lift_run, Hinf. }
  destruct (maybe_wrap_dim dimension (Z.of_nat (length (impl_sizes ii))))
    as [d|e] eqn:Hwrap.
  2:{ revert Hrun. unfold linalg_cross_out.
      rewrite bind_run, (device_type_run _ _ _ Hin), bind_run,
        (sizes_run _ _ _ Hin), bind_run, (sizes_run _ _ _ Hot), bind_run,
        lift_run, Hinf, bind_run, (expansion_step_run _ _ _ _ Hin), bind_run.
      rewrite (expansion_step_run other io); last first.
      { eapply lookup_weaken; [exact Hot | apply expanded_grows]. }
      rewrite bind_run. erewrite dim_run; last first.
      { eapply lookup_weaken; [exact Hin|]. etrans; apply expanded_grows. }
      by rewrite bind_run, lift_run, Hwrap. }
  destruct (linalg_cross_out_checks input other dimension out w ii io out_size d
              Hin Hot Hinf Hwrap) as (extent & Hext & Hchecks).
  rewrite Hchecks in Hrun. clear Hchecks.
  set (e1 := expanded input ii out_size w) in *.
  set (e2 := expanded other io out_size e1.2) in *.
  destruct (Z.eqb_spec extent 3) as [->|Hne]; [|done].
  revert Hrun. rewrite bind_run.
  destruct (heap e2.2 !! out) as [oi|] eqn:Hout.
  2:{ unfold resize_output. by rewrite bind_run, (deref_undefined _ _ Hout). }
  rewrite (resize_output_run _ _ _ _ Hout), bind_run.
  destruct (cross_stub _ _ _ _ _ _) as [[[]|e] w3] eqn:Hstub; [|done].
  rewrite ret_run. intros [= <- <-].
  destruct (cross_stub_ok _ _ _ _ _ _ _ Hstub)
    as (ia & ib & io' & Hreg & Ha & Hb & Hio & ->).
  exists ii, io, oi, out_size, d.
  do 5 (split; [done|]). split; [done|]. split; [done|].
  simpl in Hreg, Hio |- *.
  unfold e2, e1 in Hreg. rewrite !expanded_registry in Hreg.
  split; [done|].
  split; [by rewrite <- app_assoc|].
  split.
  - rewrite dom_insert_lookup_L by done.
    destruct (decide _); [done|]. by rewrite dom_insert_lookup_L.
  - split.
    { intros t Ht. rewrite lookup_insert_ne by done.
      destruct (decide _); [done|]. by rewrite lookup_insert_ne. }
    destruct (resized_lookup _ _ _ _ _ _ Hout Ha) as (va & Hva & <-).
    destruct (resized_lookup _ _ _ _ _ _ Hout Hb) as (vb & Hvb & <-).
    exists va, vb. do 2 (split; [done|]).
    rewrite lookup_insert_eq. destruct (decide (impl_sizes oi = out_size)) as [Heq|Hne].
    * rewrite Hout in Hio. injection Hio as <-. by rewrite Heq.
    * rewrite lookup_insert_eq in Hio. by injection Hio as <-.
Qed.

(** C5: when the shapes of the inputs are not broadcast-compatible,
    linalg_cross_out fails with IncompatibleShapes (whatever the axis and the
    output); when they are, the inferred shape has at every aligned position
    the maximum of the two extents. *)
Theorem infer_size_broadcast :
  (∀ (w : World) (input other : Tensor) (dimension : Z) (out : Tensor)
     (ii io : TensorImpl),
      heap w !! input = Some ii → heap w !! other = Some io →
      ¬ broadcast_compatible (impl_sizes ii) (impl_sizes io) →
      linalg_cross_out input other dimension out w = (Err IncompatibleShapes, w)) ∧
  (∀ a b : list Z,
      broadcast_compatible a b →
      ∃ s, infer_size a b = OK s ∧
           length s = (length a `max` length b)%nat ∧
           ∀ k, aligned s k = Z.max (aligned a k) (aligned b k)).
Proof.
  split.
  - intros w input other dimension out ii io Hin Hot Hnc.
    unfold linalg_cross_out.
    rewrite bind_run, (device_type_run _ _ _ Hin), bind_run, (sizes_run _ _ _ Hin),
      bind_run, (sizes_run _ _ _ Hot), bind_run, lift_run.
    destruct (infer_size _ _) as [s|e] eqn:Hinf.
    + by destruct (infer_size_ok _ _ _ Hinf) as (_ & Hc & _).
    + by destruct (infer_size_err _ _ _ Hinf) as [-> _].
  - intros a b Hc. destruct (infer_size a b) as [s|e] eqn:Hinf.
    + exists s. destruct (infer_size_ok _ _ _ Hinf) as (Hlen & _ & Hmax). done.
    + by destruct (infer_size_err _ _ _ Hinf) as [_ Hnc].
Qed.

Lemma infer_size_broadcast_witness :
  linalg_cross_out 3%nat 2%nat 1 0%nat example_world
    = (Err IncompatibleShapes, example_world) ∧
  ∃ s, infer_size [5; 1; 3] [4; 3] = OK s ∧
       length s = 3%nat ∧
       ∀ k, aligned s k = Z.max (aligned [5; 1; 3] k) (aligned [4; 3] k).
Proof.
  destruct infer_size_broadcast as [Hfail Hmax]. split.
  - apply (Hfail example_world 3%nat 2%nat 1 0%nat
             (mkImpl [2; 3] CPU (matrix [[1; 0; 0]; [0; 1; 0]]))
             (mkImpl [4; 3] CPU (matrix [[1; 2; 3]; [4; 5; 6]; [7; 8; 9]; [1; 1; 1]])));
      [reflexivity|reflexivity|].
    intros Hc. destruct (Hc 1%nat) as [H|[H|H]]; vm_compute in H; discriminate.
  - apply (Hmax [5; 1; 3] [4; 3]).
    intros [|[|[|k]]]; vm_compute; auto.
Defined.

(** C4: when the inputs broadcast and the axis resolves, but the extent of
    the broadcast shape at the resolved axis is not 3, linalg_cross_out fails
    with AxisExtentMismatch.  So it does with axis 0 for a first input whose
    extent at dimension 0 is 4 and a second input of no higher rank that
    broadcasts with it. *)
Theorem linalg_cross_out_extent_mismatch :
  (∀ (w : World) (input other : Tensor) (dimension : Z) (out : Tensor)
     (ii io : TensorImpl) (out_size : list Z) (d extent : Z),
      heap w !! input = Some ii → heap w !! other = Some io →
      infer_size (impl_sizes ii) (impl_sizes io) = OK out_size →
      maybe_wrap_dim dimension (Z.of_nat (length (impl_sizes ii))) = OK d →
      out_size !! Z.to_nat d = Some extent → extent ≠ 3 →
      (linalg_cross_out input other dimension out w).1 = Err AxisExtentMismatch) ∧
  (∀ (w : World) (input other out : Tensor) (ii io : TensorImpl) (rest : list Z),
      heap w !! input = Some ii → heap w !! other = Some io →
      impl_sizes ii = 4 :: rest →
      (length (impl_sizes io) ≤ length (impl_sizes ii))%nat →
      broadcast_compatible (impl_sizes ii) (impl_sizes io) →
      (linalg_cross_out input other 0 out w).1 = Err AxisExtentMismatch).
Proof.
  assert (∀ (w : World) (input other : Tensor) (dimension : Z) (out : Tensor)
     (ii io : TensorImpl) (out_size : list Z) (d extent : Z),
      heap w !! input = Some ii → heap w !! other = Some io →
      infer_size (impl_sizes ii) (impl_sizes io) = OK out_size →
      maybe_wrap_dim dimension (Z.of_nat (length (impl_sizes ii))) = OK d →
      out_size !! Z.to_nat d = Some extent → extent ≠ 3 →
      (linalg_cross_out input other dimension out w).1 = Err AxisExtentMismatch)
    as Hgeneral.
  { intros w input other dimension out ii io out_size d extent
      Hin Hot Hinf Hwrap Hext Hne.
    destruct (linalg_cross_out_checks input other dimension out w ii io out_size d
                Hin Hot Hinf Hwrap) as (extent' & Hext' & ->).
    rewrite Hext in Hext'. injection Hext' as <-.
    by rewrite (proj2 (Z.eqb_neq extent 3)). }
  split; [exact Hgeneral|].
  intros w input other out ii io rest Hin Hot Hshape Hrank Hc.
  destruct (infer_size (impl_sizes ii) (impl_sizes io)) as [s|e] eqn:Hinf.
  2:{ by destruct (infer_size_err _ _ _ Hinf) as [_ Hnc]. }
  destruct (infer_size_ok _ _ _ Hinf) as (Hlen & _ & Hmax).
  rewrite Nat.max_l in Hlen by done.
  rewrite Hshape in Hlen, Hmax. simpl in Hlen.
  destruct s as [|x s]; [done|]. injection Hlen as Hlen.
  specialize (Hmax (length rest)). specialize (Hc (length rest)).
  rewrite Hshape in Hc.
  rewrite !aligned_cons, Hlen in Hmax. rewrite aligned_cons in Hc.
  repeat case_decide; try lia.
  apply (Hgeneral w input other 0 out ii io (x :: s) 0 x Hin Hot Hinf); [|done|lia].
  rewrite Hshape. apply maybe_wrap_dim_id. simpl. lia.
Qed.

Lemma linalg_cross_out_extent_mismatch_witness :
  (linalg_cross_out 2%nat 0%nat 0 1%nat example_world).1 = Err AxisExtentMismatch ∧
  (linalg_cross_out 2%nat 2%nat 0 1%nat example_world).1 = Err AxisExtentMismatch.
Proof.
  destruct linalg_cross_out_extent_mismatch as [Hgeneral Hexample]. split.
  - apply (Hgeneral example_world 2%nat 0%nat 0 1%nat
             (mkImpl [4; 3] CPU (matrix [[1; 2; 3]; [4; 5; 6]; [7; 8; 9]; [1; 1; 1]]))
             (mkImpl [3] CPU (vector [1; 0; 0])) [4; 3] 0 4);
      [reflexivity|reflexivity|reflexivity|reflexivity|reflexivity|lia].
  - apply (Hexample example_world 2%nat 2%nat 1%nat
             (mkImpl [4; 3] CPU (matrix [[1; 2; 3]; [4; 5; 6]; [7; 8; 9]; [1; 1; 1]]))
             (mkImpl [4; 3] CPU (matrix [[1; 2; 3]; [4; 5; 6]; [7; 8; 9]; [1; 1; 1]]))
             [3]);
      [reflexivity|reflexivity|reflexivity|simpl; lia|].
    intros k. left. reflexivity.
Defined.

(** ** The expansion step and the output *)

Lemma expanded_trace t impl out_size w :
  trace (expanded t impl out_size w).2 =
  trace w ++ (if decide (impl_sizes impl = out_size) then []
              else [EvExpand t out_size (expanded t impl out_size w).1]).
Proof.
  unfold expanded. destruct (decide _); simpl; [by rewrite app_nil_r|done].
Qed.

Lemma expanded_same t impl out_size w :
  impl_sizes impl = out_size → expanded t impl out_size w = (t, w).
Proof. intros H. unfold expanded. by rewrite decide_True. Qed.

Lemma not_elem_of_resize_warnings self size view out shape out_size :
  EvExpand self size view ∉ resize_warnings out shape out_size.
Proof.
  unfold resize_warnings. repeat case_match; try apply not_elem_of_nil.
  rewrite not_elem_of_cons. split; [done|apply not_elem_of_nil].
Qed.

(** C6: in a successful call, an input whose shape is already the broadcast
    shape goes to the kernel as the very same tensor: no expand of it is
    called; when both inputs have the broadcast shape nothing is expanded
    and no tensor is added to the store; and an input other than the output
    is in the store as it was. *)
Theorem expansion_step_is_identity
    (input other : Tensor) (dimension : Z) (out : Tensor) (w w' : World) (r : Tensor) :
  linalg_cross_out input other dimension out w = (OK r, w') →
  ∃ (ii io : TensorImpl) (out_size : list Z) (a b : Tensor) (d : Z) (evs : list Event),
    heap w !! input = Some ii ∧ heap w !! other = Some io ∧
    infer_size (impl_sizes ii) (impl_sizes io) = OK out_size ∧
    trace w' = trace w ++ evs ++ [EvKernel (impl_device ii) out a b d] ∧
    (impl_sizes ii = out_size →
       a = input ∧ (∀ size view, EvExpand input size view ∉ evs) ∧
       (input ≠ out → heap w' !! input = Some ii)) ∧
    (impl_sizes io = out_size →
       b = other ∧ (∀ size view, EvExpand other size view ∉ evs) ∧
       (other ≠ out → heap w' !! other = Some io)) ∧
    (impl_sizes ii = out_size → impl_sizes io = out_size →
       (∀ self size view, EvExpand self size view ∉ evs) ∧
       dom (heap w') = dom (heap w)).
Proof.
  intros Hrun.
  destruct (linalg_cross_out_ok _ _ _ _ _ _ _ Hrun)
    as (ii & io & oi & out_size & d & Hin & Hot & Hinf & _ & _ & _ & Hrest).
  simpl in Hrest. destruct Hrest as (Hout & _ & Htrace & Hdom & Hkeep & _).
  set (e1 := expanded input ii out_size w) in *.
  set (e2 := expanded other io out_size e1.2) in *.
  exists ii, io, out_size, e1.1, e2.1, d.
  exists ((if decide (impl_sizes ii = out_size) then []
           else [EvExpand input out_size e1.1]) ++
          (if decide (impl_sizes io = out_size) then []
           else [EvExpand other out_size e2.1]) ++
          resize_warnings out (impl_sizes oi) out_size).
  do 3 (split; [done|]).
  split.
  { rewrite Htrace. unfold e2. rewrite expanded_trace. fold e2.
    unfold e1 at 1. rewrite expanded_trace. fold e1.
    by rewrite <- !app_assoc. }
  assert (heap w ⊆ heap e2.2) as Hsub by (etrans; apply expanded_grows).
  split; [|split].
  - intros Hii. split; [unfold e1; by rewrite expanded_same|].
    split.
    + intros size view. rewrite decide_True by done. simpl.
      rewrite elem_of_app. intros [Hex|Hw].
      * destruct (decide (impl_sizes io = out_size)) as [|Hio];
          [by apply elem_of_nil in Hex|].
        apply list_elem_of_singleton in Hex. injection Hex as -> _ _.
        rewrite Hot in Hin. injection Hin as ->. done.
      * by apply not_elem_of_resize_warnings in Hw.
    + intros Hne. rewrite Hkeep by done. by eapply lookup_weaken.
  - intros Hio. split.
    { unfold e2. by rewrite expanded_same. }
    split.
    + intros size view. rewrite (decide_True _ _ Hio). simpl.
      rewrite elem_of_app. intros [Hex|Hw].
      * destruct (decide (impl_sizes ii = out_size)) as [|Hii];
          [by apply elem_of_nil in Hex|].
        apply list_elem_of_singleton in Hex. injection Hex as <- _ _.
        rewrite Hot in Hin. injection Hin as ->. done.
      * by apply not_elem_of_resize_warnings in Hw.
    + intros Hne. rewrite Hkeep by done. by eapply lookup_weaken.
  - intros Hii Hio. split.
    + intros self size view. rewrite !decide_True by done. simpl.
      apply not_elem_of_resize_warnings.
    + rewrite Hdom. unfold e2, e1. by rewrite !expanded_same.
Qed.

Lemma expansion_step_is_identity_witness :
  let w' := (linalg_cross_out 1%nat 0%nat (-1) 2%nat example_world).2 in
  ∃ (ii io : TensorImpl) (out_size : list Z) (a b : Tensor) (d : Z) (evs : list Event),
    heap example_world !! 1%nat = Some ii ∧ heap example_world !! 0%nat = Some io ∧
    infer_size (impl_sizes ii) (impl_sizes io) = OK out_size ∧
    trace w' = trace example_world ++ evs ++ [EvKernel (impl_device ii) 2%nat a b d] ∧
    (impl_sizes ii = out_size →
       a = 1%nat ∧ (∀ size view, EvExpand 1%nat size view ∉ evs) ∧
       (1%nat ≠ 2%nat → heap w' !! 1%nat = Some ii)) ∧
    (impl_sizes io = out_size →
       b = 0%nat ∧ (∀ size view, EvExpand 0%nat size view ∉ evs) ∧
       (0%nat ≠ 2%nat → heap w' !! 0%nat = Some io)) ∧
    (impl_sizes ii = out_size → impl_sizes io = out_size →
       (∀ self size view, EvExpand self size view ∉ evs) ∧
       dom (heap w') = dom (heap example_world)).
Proof.
  intros w'.
  apply (expansion_step_is_identity 1%nat 0%nat (-1) 2%nat example_world w' 2%nat).
  apply run_ok. vm_compute. reflexivity.
Defined.

Lemma cross_out_run (input other : Tensor) (dimension : option Z) (out : Tensor)
    (w w' : World) (r : Tensor) :
  cross_out input other dimension out w = (OK r, w') →
  ∃ d, linalg_cross_out input other d out w = (OK r, w').
Proof.
  unfold cross_out. rewrite bind_run.
  destruct (sizes input w) as [[input_sizes|e] w1] eqn:Hs; [|done].
  assert (w1 = w) as ->.
  { revert Hs. unfold sizes, deref. rewrite bind_run.
    destruct (heap w !! input); [|done]. by intros [= _ <-]. }
  rewrite bind_run, lift_run.
  destruct (_default_cross_dim dimension input_sizes) as [d|e]; [|done].
  intros H. by exists d.
Qed.

Lemma count_resize_warnings_app (evs1 evs2 : list Event) :
  count_resize_warnings (evs1 ++ evs2) =
  (count_resize_warnings evs1 + count_resize_warnings evs2)%nat.
Proof.
  unfold count_resize_warnings. by rewrite List.filter_app, length_app.
Qed.

(** C7: after a successful cross_out or linalg_cross_out the output tensor
    has exactly the broadcast shape; and if the output supplied had one or
    more elements and another shape, the call has emitted exactly one
    discard warning (and none otherwise). *)
Theorem output_shape_and_warning
    (run : M Tensor) (input other : Tensor) (dimension : option Z) (d : Z)
    (out : Tensor) (w w' : World) (r : Tensor)
    (ii io oi : TensorImpl) (out_size : list Z) :
  run = linalg_cross_out input other d out ∨
  run = cross_out input other dimension out →
  run w = (OK r, w') →
  heap w !! input = Some ii → heap w !! other = Some io →
  heap w !! out = Some oi →
  infer_size (impl_sizes ii) (impl_sizes io) = OK out_size →
  r = out ∧
  (∃ oi', heap w' !! out = Some oi' ∧ impl_sizes oi' = out_size) ∧
  ∃ evs, trace w' = trace w ++ evs ∧
    count_resize_warnings evs =
    if decide (numel (impl_sizes oi) ≠ 0 ∧ impl_sizes oi ≠ out_size)
    then 1%nat else 0%nat.
Proof.
  intros Hwhich Hrun Hin Hot Hout Hinf.
  assert (∃ d', linalg_cross_out input other d' out w = (OK r, w')) as [d' Hrun'].
  { destruct Hwhich as [->| ->]; [by exists d|by eapply cross_out_run]. }
  clear Hrun Hwhich.
  destruct (linalg_cross_out_ok _ _ _ _ _ _ _ Hrun')
    as (ii' & io' & oi' & out_size' & d'' & Hin' & Hot' & Hinf' & _ & _ & -> & Hrest).
  rewrite Hin in Hin'. injection Hin' as <-.
  rewrite Hot in Hot'. injection Hot' as <-.
  rewrite Hinf in Hinf'. injection Hinf' as <-.
  simpl in Hrest. destruct Hrest as (Hout' & _ & Htrace & _ & _ & va & vb & _ & _ & Hfinal).
  set (e1 := expanded input ii out_size w) in *.
  set (e2 := expanded other io out_size e1.2) in *.
  assert (heap e2.2 !! out = Some oi) as Hout2.
  { eapply lookup_weaken; [exact Hout|]. etrans; apply expanded_grows. }
  rewrite Hout2 in Hout'. injection Hout' as <-.
  split; [done|]. split; [by eexists|].
  exists ((if decide (impl_sizes ii = out_size) then []
           else [EvExpand input out_size e1.1]) ++
          (if decide (impl_sizes io = out_size) then []
           else [EvExpand other out_size e2.1]) ++
          resize_warnings out (impl_sizes oi) out_size ++
          [EvKernel (impl_device ii) out e1.1 e2.1 d'']).
  split.
  { rewrite Htrace. unfold e2. rewrite expanded_trace. fold e2.
    unfold e1 at 1. rewrite expanded_trace. fold e1.
    by rewrite <- !app_assoc. }
  rewrite !count_resize_warnings_app. unfold resize_warnings.
  destruct (decide (impl_sizes ii = out_size)), (decide (impl_sizes io = out_size)),
    (decide (impl_sizes oi = out_size)), (Z.eqb_spec (numel (impl_sizes oi)) 0);
    simpl; case_decide; try reflexivity; intuition congruence.
Qed.

Lemma output_shape_and_warning_witness :
  let run := cross_out 1%nat 0%nat None 2%nat in
  let w' := (run example_world).2 in
  2%nat = 2%nat ∧
  (∃ oi', heap w' !! 2%nat = Some oi' ∧ impl_sizes oi' = [3; 3]) ∧
  ∃ evs, trace w' = trace example_world ++ evs ∧
    count_resize_warnings evs =
    if decide (numel [4; 3] ≠ 0 ∧ [4; 3] ≠ [3; 3]) then 1%nat else 0%nat.
Proof.
  intros run w'.
  apply (output_shape_and_warning run 1%nat 0%nat None 0 2%nat example_world w' 2%nat
           (mkImpl [3; 3] CPU (matrix [[0; 1; 0]; [0; 0; 1]; [1; 0; 0]]))
           (mkImpl [3] CPU (vector [1; 0; 0]))
           (mkImpl [4; 3] CPU (matrix [[1; 2; 3]; [4; 5; 6]; [7; 8; 9]; [1; 1; 1]]))
           [3; 3]).
  - right. reflexivity.
  - apply run_ok. vm_compute. reflexivity.
  - reflexivity.
  - reflexivity.
  - reflexivity.
  - reflexivity.
Defined.

(** C10: the kernel is dispatched on the device type of the first input, and
    the device type of the second input is read nowhere: moving [other] to
    any device leaves the result, the events (hence the dispatch key and the
    operands of the kernel) and the extents and elements of every tensor as
    they are. *)
Theorem dispatch_keyed_on_first_input
    (input other : Tensor) (dimension : Z) (out : Tensor) (w : World)
    (device : DeviceType) :
  input ≠ other →
  let run1 := linalg_cross_out input other dimension out w in
  let run2 := linalg_cross_out input other dimension out (set_device other device w) in
  run1.1 = run2.1 ∧
  trace run1.2 = trace run2.2 ∧
  (∀ t : Tensor,
      option_Forall2 (λ i1 i2, impl_sizes i1 = impl_sizes i2 ∧ impl_data i1 = impl_data i2)
                     (heap run1.2 !! t) (heap run2.2 !! t)) ∧
  (∀ r, run1.1 = OK r →
      ∃ ii evs a b d, heap w !! input = Some ii ∧
        trace run1.2 = trace w ++ evs ++ [EvKernel (impl_device ii) out a b d] ∧
        ∀ k o a' b' d', EvKernel k o a' b' d' ∉ evs).
Proof.
  intros Hne run1 run2. subst run1 run2.
  destruct (heap w !! input) as [ii|] eqn:Hin.
  - destruct (related_linalg_cross_out input other dimension out w
                (set_device other device w)) as [Hres (_ & Htr & _ & Hheap)].
    { apply agree_set_device; [done|by rewrite Hin]. }
    split; [done|]. split; [done|]. split.
    + intros t. destruct (Hheap t) as [i1 i2 (Hs & Hd & _)|]; by constructor.
    + intros r Hr. apply run_ok in Hr.
      destruct (linalg_cross_out_ok _ _ _ _ _ _ _ Hr)
        as (ii' & io & oi & out_size & d & Hin' & _ & _ & _ & _ & _ & Hrest).
      simpl in Hrest. destruct Hrest as (_ & _ & Htrace & _).
      rewrite Hin in Hin'. injection Hin' as <-.
      set (e1 := expanded input ii out_size w) in *.
      set (e2 := expanded other io out_size e1.2) in *.
      exists ii,
        ((if decide (impl_sizes ii = out_size) then []
          else [EvExpand input out_size e1.1]) ++
         (if decide (impl_sizes io = out_size) then []
          else [EvExpand other out_size e2.1]) ++
         resize_warnings out (impl_sizes oi) out_size), e1.1, e2.1, d.
      split; [done|]. split.
      * rewrite Htrace. unfold e2. rewrite expanded_trace. fold e2.
        unfold e1 at 1. rewrite expanded_trace. fold e1.
        by rewrite <- !app_assoc.
      * intros k o a' b' d'. unfold resize_warnings.
        rewrite !elem_of_app.
        repeat case_match; rewrite ?elem_of_nil, ?list_elem_of_singleton;
          intuition congruence.
  - assert (∀ w0, heap w0 !! input = None →
              linalg_cross_out input other dimension out w0 = (Err UndefinedTensor, w0))
      as Hdead.
    { intros w0 H0. unfold linalg_cross_out, device_type.
      by rewrite !bind_run, (deref_undefined _ _ H0). }
    rewrite (Hdead w Hin), Hdead.
    2:{ simpl. by rewrite lookup_alter_ne. }
    simpl. split; [done|]. split; [done|]. split; [|done].
    intros t. destruct (decide (other = t)) as [<-|Ht].
    + rewrite lookup_alter_eq. destruct (heap w !! other); by constructor.
    + rewrite lookup_alter_ne by done. destruct (heap w !! t); by constructor.
Qed.

Lemma dispatch_keyed_on_first_input_witness :
  let run1 := linalg_cross_out 0%nat 1%nat 0 2%nat example_world in
  let run2 := linalg_cross_out 0%nat 1%nat 0 2%nat (set_device 1%nat CUDA example_world) in
  run1.1 = run2.1 ∧
  trace run1.2 = trace run2.2 ∧
  (∀ t : Tensor,
      option_Forall2 (λ i1 i2, impl_sizes i1 = impl_sizes i2 ∧ impl_data i1 = impl_data i2)
                     (heap run1.2 !! t) (heap run2.2 !! t)) ∧
  (∀ r, run1.1 = OK r →
      ∃ ii evs a b d, heap example_world !! 0%nat = Some ii ∧
        trace run1.2 = trace example_world ++ evs ++ [EvKernel (impl_device ii) 2%nat a b d] ∧
        ∀ k o a' b' d', EvKernel k o a' b' d' ∉ evs).
Proof.
  apply (dispatch_keyed_on_first_input 0%nat 1%nat 0 2%nat example_world CUDA).
  lia.
Defined.

(** ** The cross product of the kernel *)

Lemma wrap64_mod (x y : Z) :
  (x + 2 ^ 63) mod 2 ^ 64 = (y + 2 ^ 63) mod 2 ^ 64 → wrap64 x = wrap64 y.
Proof. unfold wrap64. by intros ->. Qed.

Lemma neg64_sub64 (x y : Z) : neg64 (sub64 x y) = sub64 y x.
Proof.
  unfold neg64, sub64. apply wrap64_mod. unfold wrap64.
  pose proof (Z.div_mod (x - y + 2 ^ 63) (2 ^ 64) ltac:(lia)) as Hdm.
  replace (- ((x - y + 2 ^ 63) mod 2 ^ 64 - 2 ^ 63) + 2 ^ 63)
    with (y - x + 2 ^ 63 + ((x - y + 2 ^ 63) `div` 2 ^ 64) * 2 ^ 64) by lia.
  apply Z_mod_plus_full.
Qed.

Lemma mul64_comm (x y : Z) : mul64 x y = mul64 y x.
Proof. unfold mul64. by rewrite Z.mul_comm. Qed.

(** The kernel itself is anticommutative, element by element. *)
Lemma cross_at_anticommutative (a b : list Z → Z) (d : nat) (idx : list Z) :
  cross_at a b d idx = neg64 (cross_at b a d idx).
Proof.
  unfold cross_at. repeat case_match; try reflexivity;
    by rewrite neg64_sub64, (mul64_comm (a _)), (mul64_comm (a _)).
Qed.

(** On success the axis the kernel gets is the axis wrapped against the rank
    of the first input (Cross.cpp, line 61). *)
Lemma linalg_cross_out_axis (input other : Tensor) (dimension : Z) (out : Tensor)
    (w w' : World) (r : Tensor) :
  linalg_cross_out input other dimension out w = (OK r, w') →
  ∃ ii dev a b d,
    heap w !! input = Some ii ∧
    maybe_wrap_dim dimension (Z.of_nat (length (impl_sizes ii))) = OK d ∧
    last (trace w') = Some (EvKernel dev out a b d).
Proof.
  intros Hrun.
  destruct (linalg_cross_out_ok _ _ _ _ _ _ _ Hrun)
    as (ii & io & oi & out_size & d & Hin & _ & _ & Hwrap & _ & _ & Hrest).
  simpl in Hrest. destruct Hrest as (_ & _ & Htrace & _).
  exists ii. do 3 eexists. exists d. do 2 (split; [done|]).
  by rewrite Htrace, app_assoc, last_snoc.
Qed.

(** C1: for a first input of shape (3), a second input of shape (3,3) and
    axis -1, the broadcast shape is (3,3), and the kernel is called with axis
    0, which is -1 plus the rank of the first input; -1 plus the rank of the
    broadcast shape is 1. *)
Theorem axis_wrapped_against_first_input :
  let run := linalg_cross 0%nat 1%nat (-1) example_world in
  shape_of example_world 0%nat = Some [3] ∧
  shape_of example_world 1%nat = Some [3; 3] ∧
  infer_size [3] [3; 3] = OK [3; 3] ∧
  run.1 = OK 4%nat ∧
  trace run.2 = [EvExpand 0%nat [3; 3] 5%nat; EvKernel CPU 4%nat 5%nat 1%nat 0] ∧
  maybe_wrap_dim (-1) (Z.of_nat (length [3])) = OK 0 ∧
  maybe_wrap_dim (-1) (Z.of_nat (length [3; 3])) = OK 1.
Proof. repeat split; vm_compute; reflexivity. Qed.

(** C8: for a of shape (3), b of shape (3,3) and axis -1, both
    linalg_cross a b and linalg_cross b a succeed with a result of shape
    (3,3), but the first is taken along axis 0 and the second along axis 1:
    the element at (0,0) of the first is 1, the negation of the element at
    (0,0) of the second is 0. *)
Theorem cross_across_ranks_not_anticommutative :
  let ab := linalg_cross 0%nat 1%nat (-1) example_world in
  let ba := linalg_cross 1%nat 0%nat (-1) example_world in
  ab.1 = OK 4%nat ∧ ba.1 = OK 4%nat ∧
  shape_of ab.2 4%nat = Some [3; 3] ∧ shape_of ba.2 4%nat = Some [3; 3] ∧
  last (trace ab.2) = Some (EvKernel CPU 4%nat 5%nat 1%nat 0) ∧
  last (trace ba.2) = Some (EvKernel CPU 4%nat 1%nat 5%nat 1) ∧
  element ab.2 4%nat [0; 0] = Some 1 ∧
  neg64 <$> element ba.2 4%nat [0; 0] = Some 0.
Proof. repeat split; vm_compute; reflexivity. Qed.

(** ** Anticommutativity for inputs of equal rank *)

Lemma infer_aligned_comm (a : list Z) : ∀ b, infer_aligned a b = infer_aligned b a.
Proof.
  induction a as [|x a IH]; intros [|y b]; try done.
  simpl. rewrite (IH b), (Z.max_comm x y), (Z.eqb_sym x y).
  by rewrite <- !orb_assoc, (orb_comm (x =? 1)).
Qed.

Lemma infer_size_comm (a b : list Z) : infer_size a b = infer_size b a.
Proof. unfold infer_size. by rewrite infer_aligned_comm, Nat.max_comm. Qed.

Lemma expanded_data t impl out_size w :
  heap w !! t = Some impl →
  ∃ view, heap (expanded t impl out_size w).2 !! (expanded t impl out_size w).1
          = Some view ∧ impl_data view = operand_data impl out_size.
Proof.
  intros Ht. unfold expanded, operand_data.
  destruct (decide _) as [Heq|Hne]; simpl.
  - by exists impl.
  - eexists. by rewrite lookup_insert_eq.
Qed.

Lemma resized_live (out : Tensor) (oi : TensorImpl) (shape : list Z) (w : World)
    (t : Tensor) :
  is_Some (heap w !! t) → is_Some (heap (resized out oi shape w) !! t).
Proof.
  unfold resized. simpl. destruct (decide _); [done|].
  intros H. apply lookup_insert_is_Some. destruct (decide (out = t)); auto.
Qed.

Lemma cross_stub_run (device : DeviceType) (out a b : Tensor) (d : Z) (w : World) :
  registry w device = true →
  is_Some (heap w !! a) → is_Some (heap w !! b) → is_Some (heap w !! out) →
  ∃ w', cross_stub device out a b d w = (OK (), w').
Proof.
  intros Hreg [ia Ha] [ib Hb] [io Hio].
  unfold cross_stub, registered. rewrite bind_run, Hreg.
  unfold cross_kernel, emit, deref, store, mbind, M_bind. simpl.
  rewrite Ha. simpl. rewrite Hb. simpl. rewrite Hio. simpl. by eexists.
Qed.

Lemma linalg_cross_out_succeeds (input other : Tensor) (dimension : Z) (out : Tensor)
    (w : World) (ii io oi : TensorImpl) (out_size : list Z) (d : Z) :
  heap w !! input = Some ii → heap w !! other = Some io →
  heap w !! out = Some oi →
  infer_size (impl_sizes ii) (impl_sizes io) = OK out_size →
  maybe_wrap_dim dimension (Z.of_nat (length (impl_sizes ii))) = OK d →
  out_size !! Z.to_nat d = Some 3 →
  registry w (impl_device ii) = true →
  ∃ w', linalg_cross_out input other dimension out w = (OK out, w').
Proof.
  intros Hin Hot Hout Hinf Hwrap Hext Hreg.
  destruct (linalg_cross_out_checks input other dimension out w ii io out_size d
              Hin Hot Hinf Hwrap) as (extent & Hext' & ->).
  rewrite Hext in Hext'. injection Hext' as <-. simpl.
  set (e1 := expanded input ii out_size w).
  set (e2 := expanded other io out_size e1.2).
  assert (heap e1.2 ⊆ heap e2.2) as H12 by apply expanded_grows.
  assert (heap w ⊆ heap e2.2) as H02 by (etrans; apply expanded_grows).
  assert (heap e2.2 !! out = Some oi) as Hout2 by (by eapply lookup_weaken).
  rewrite bind_run, (resize_output_run _ _ _ _ Hout2), bind_run.
  destruct (cross_stub_run (impl_device ii) out e1.1 e2.1 d
              (resized out oi out_size e2.2)) as [w' ->].
  - simpl. unfold e2, e1. by rewrite !expanded_registry.
  - apply resized_live.
    destruct (expanded_sizes input ii out_size w Hin) as (v & Hv & _).
    exists v. by eapply lookup_weaken.
  - apply resized_live.
    destruct (expanded_sizes other io out_size e1.2) as (v & Hv & _).
    { eapply lookup_weaken; [exact Hot|apply expanded_grows]. }
    by exists v.
  - apply resized_live. by exists oi.
  - by eexists.
Qed.

Lemma linalg_cross_ok (input other : Tensor) (dimension : Z) (w w' : World)
    (r : Tensor) (ii io : TensorImpl) :
  heap w !! input = Some ii → heap w !! other = Some io →
  linalg_cross input other dimension w = (OK r, w') →
  ∃ (out_size : list Z) (d : Z),
    infer_size (impl_sizes ii) (impl_sizes io) = OK out_size ∧
    maybe_wrap_dim dimension (Z.of_nat (length (impl_sizes ii))) = OK d ∧
    out_size !! Z.to_nat d = Some 3 ∧
    registry w (impl_device ii) = true ∧
    r = fresh (dom (heap w)) ∧
    heap w' !! r =
    Some (mkImpl out_size (impl_device ii)
                 (cross_at (operand_data ii out_size) (operand_data io out_size)
                           (Z.to_nat d))).
Proof.
  intros Hin Hot. unfold linalg_cross.
  rewrite bind_run, (device_type_run _ _ _ Hin), bind_run.
  unfold at_empty, alloc. simpl.
  set (out := fresh (dom (heap w))).
  set (w0 := mkWorld _ _ _).
  assert (heap w ⊆ heap w0) as Hsub.
  { apply insert_subseteq, not_elem_of_dom, is_fresh. }
  rewrite bind_run.
  destruct (linalg_cross_out _ _ _ _ _) as [[r'|e] w1] eqn:Hrun; [|done].
  rewrite ret_run. intros [= <- <-].
  destruct (linalg_cross_out_ok _ _ _ _ _ _ _ Hrun)
    as (ii' & io' & oi & out_size & d & Hin' & Hot' & Hinf & Hwrap & Hext & _ & Hrest).
  rewrite (lookup_weaken _ _ _ _ Hin Hsub) in Hin'. injection Hin' as <-.
  rewrite (lookup_weaken _ _ _ _ Hot Hsub) in Hot'. injection Hot' as <-.
  simpl in Hrest.
  destruct Hrest as (Hout & Hreg & _ & _ & _ & va & vb & Hva & Hvb & Hfinal).
  set (e1 := expanded input ii out_size w0) in *.
  set (e2 := expanded other io out_size e1.2) in *.
  exists out_size, d. do 5 (split; [done|]).
  rewrite Hfinal. do 2 f_equal.
  - assert (heap e2.2 !! out = Some (mkImpl [0] (impl_device ii) (λ _, 0))) as Hout'.
    { eapply lookup_weaken; [|etrans; apply expanded_grows].
      unfold w0. simpl. by rewrite lookup_insert_eq. }
    rewrite Hout' in Hout. by injection Hout as <-.
  - f_equal.
    + destruct (expanded_data input ii out_size w0) as (v & Hv & <-).
      { by eapply lookup_weaken. }
      fold e1 in Hv.
      assert (heap e2.2 !! e1.1 = Some v) as Hv2
        by (eapply lookup_weaken; [exact Hv | apply expanded_grows]).
      rewrite Hva in Hv2. by injection Hv2 as <-.
    + destruct (expanded_data other io out_size e1.2) as (v & Hv & <-).
      { eapply lookup_weaken; [by eapply lookup_weaken|apply expanded_grows]. }
      fold e2 in Hv. rewrite Hvb in Hv. by injection Hv as <-.
Qed.

Lemma linalg_cross_succeeds (input other : Tensor) (dimension : Z) (w : World)
    (ii io : TensorImpl) (out_size : list Z) (d : Z) :
  heap w !! input = Some ii → heap w !! other = Some io →
  infer_size (impl_sizes ii) (impl_sizes io) = OK out_size →
  maybe_wrap_dim dimension (Z.of_nat (length (impl_sizes ii))) = OK d →
  out_size !! Z.to_nat d = Some 3 →
  registry w (impl_device ii) = true →
  ∃ w', linalg_cross input other dimension w = (OK (fresh (dom (heap w))), w').
Proof.
  intros Hin Hot Hinf Hwrap Hext Hreg. unfold linalg_cross.
  rewrite bind_run, (device_type_run _ _ _ Hin), bind_run.
  unfold at_empty, alloc. simpl.
  set (out := fresh (dom (heap w))).
  set (w0 := mkWorld _ _ _).
  assert (heap w ⊆ heap w0) as Hsub.
  { apply insert_subseteq, not_elem_of_dom, is_fresh. }
  destruct (linalg_cross_out_succeeds input other dimension out w0 ii io
              (mkImpl [0] (impl_device ii) (λ _, 0)) out_size d) as [w' Hrun];
    try done; try (by eapply lookup_weaken).
  { unfold w0. simpl. by rewrite lookup_insert_eq. }
  rewrite bind_run, Hrun. by eexists.
Qed.

(** For inputs of the same rank on the same device, the cross product is
    anticommutative: if [linalg_cross a b] succeeds, so does
    [linalg_cross b a], the results have the same shape and every element of
    the first is the negation of the element of the second. *)
Lemma linalg_cross_anticommutative_same_rank
    (a b : Tensor) (dimension : Z) (w w1 : World) (out1 : Tensor) (ia ib : TensorImpl) :
  heap w !! a = Some ia → heap w !! b = Some ib →
  length (impl_sizes ia) = length (impl_sizes ib) →
  impl_device ia = impl_device ib →
  linalg_cross a b dimension w = (OK out1, w1) →
  ∃ (out2 : Tensor) (w2 : World),
    linalg_cross b a dimension w = (OK out2, w2) ∧
    is_Some (shape_of w1 out1) ∧
    shape_of w1 out1 = shape_of w2 out2 ∧
    ∀ idx, element w1 out1 idx = neg64 <$> element w2 out2 idx.
Proof.
  intros Ha Hb Hrank Hdev Hab.
  destruct (linalg_cross_ok _ _ _ _ _ _ _ _ Ha Hb Hab)
    as (out_size & d & Hinf & Hwrap & Hext & Hreg & -> & Hout1).
  rewrite infer_size_comm in Hinf. rewrite Hrank in Hwrap. rewrite Hdev in Hreg.
  destruct (linalg_cross_succeeds b a dimension w ib ia out_size d
              Hb Ha Hinf Hwrap Hext Hreg) as [w2 Hba].
  exists (fresh (dom (heap w))), w2. split; [done|].
  destruct (linalg_cross_ok _ _ _ _ _ _ _ _ Hb Ha Hba)
    as (out_size' & d' & Hinf' & Hwrap' & _ & _ & _ & Hout2).
  rewrite Hinf in Hinf'. injection Hinf' as <-.
  rewrite Hwrap in Hwrap'. injection Hwrap' as <-.
  unfold shape_of, element. rewrite Hout1, Hout2. simpl.
  split; [by eexists|]. split; [done|].
  intros idx. f_equal. apply cross_at_anticommutative.
Qed.

(** ** Every outcome of linalg_cross_out *)

Lemma linalg_cross_out_undefined_input (input other : Tensor) (dimension : Z)
    (out : Tensor) (w : World) :
  heap w !! input = None →
  linalg_cross_out input other dimension out w = (Err UndefinedTensor, w).
Proof.
  intros Hin. unfold linalg_cross_out, device_type.
  by rewrite !bind_run, (deref_undefined _ _ Hin).
Qed.

Lemma linalg_cross_out_undefined_other (input other : Tensor) (dimension : Z)
    (out : Tensor) (w : World) (ii : TensorImpl) :
  heap w !! input = Some ii → heap w !! other = None →
  linalg_cross_out input other dimension out w = (Err UndefinedTensor, w).
Proof.
  intros Hin Hot. unfold linalg_cross_out.
  rewrite bind_run, (device_type_run _ _ _ Hin), bind_run, (sizes_run _ _ _ Hin).
  unfold sizes. by rewrite !bind_run, (deref_undefined _ _ Hot).
Qed.

Lemma linalg_cross_out_infer_err (input other : Tensor) (dimension : Z)
    (out : Tensor) (w : World) (ii io : TensorImpl) (e : Error) :
  heap w !! input = Some ii → heap w !! other = Some io →
  infer_size (impl_sizes ii) (impl_sizes io) = Err e →
  linalg_cross_out input other dimension out w = (Err e, w).
Proof.
  intros Hin Hot Hinf. unfold linalg_cross_out.
  by rewrite bind_run, (device_type_run _ _ _ Hin), bind_run, (sizes_run _ _ _ Hin),
    bind_run, (sizes_run _ _ _ Hot), bind_run, lift_run, Hinf.
Qed.

Lemma linalg_cross_out_wrap_err (input other : Tensor) (dimension : Z)
    (out : Tensor) (w : World) (ii io : TensorImpl) (out_size : list Z) (e : Error) :
  heap w !! input = Some ii → heap w !! other = Some io →
  infer_size (impl_sizes ii) (impl_sizes io) = OK out_size →
  maybe_wrap_dim dimension (Z.of_nat (length (impl_sizes ii))) = Err e →
  linalg_cross_out input other dimension out w =
  (Err e, (expanded other io out_size (expanded input ii out_size w).2).2).
Proof.
  intros Hin Hot Hinf Hwrap. unfold linalg_cross_out.
  rewrite bind_run, (device_type_run _ _ _ Hin), bind_run,
    (sizes_run _ _ _ Hin), bind_run, (sizes_run _ _ _ Hot), bind_run,
    lift_run, Hinf, bind_run, (expansion_step_run _ _ _ _ Hin), bind_run.
  rewrite (expansion_step_run other io); last first.
  { eapply lookup_weaken; [exact Hot | apply expanded_grows]. }
  rewrite bind_run. erewrite dim_run; last first.
  { eapply lookup_weaken; [exact Hin|]. etrans; apply expanded_grows. }
  by rewrite bind_run, lift_run, Hwrap.
Qed.

Lemma maybe_wrap_dim_error (d rank : Z) (e : Error) :
  maybe_wrap_dim d rank = Err e → e = AxisOutOfRange ∧ (d < - rank ∨ rank ≤ d).
Proof.
  unfold maybe_wrap_dim.
  destruct (Z.leb_spec (- rank) d), (Z.ltb_spec d rank); simpl;
    intros [= <-]; split; try done; lia.
Qed.

(** The run after the checks: the output is resized, then the kernel is
    looked up and run. *)
Lemma linalg_cross_out_dispatch (device : DeviceType) (out a b : Tensor) (d : Z)
    (out_size : list Z) (w : World) (oi va vb : TensorImpl) :
  heap w !! out = Some oi → heap w !! a = Some va → heap w !! b = Some vb →
  (resize_output out out_size ≫= λ _,
   cross_stub device out a b d ≫= λ _, mret out) w =
  if registry w device
  then (OK out, kernel_written device out a b d out_size (impl_device oi)
                  (impl_data va) (impl_data vb) (resized out oi out_size w))
  else (Err UnsupportedDevice, resized out oi out_size w).
Proof.
  intros Hout Ha Hb.
  rewrite bind_run, (resize_output_run _ _ _ _ Hout), bind_run.
  unfold cross_stub, registered. rewrite bind_run. simpl.
  destruct (registry w device); [|done].
  assert (∀ t x, heap w !! t = Some x →
            ∃ x', heap (resized out oi out_size w) !! t = Some x' ∧
                  impl_data x' = impl_data x ∧
                  (t = out → impl_sizes x' = out_size ∧ impl_device x' = impl_device oi))
    as Hres.
  { intros t x Ht. unfold resized. simpl.
    destruct (decide (impl_sizes oi = out_size)) as [Heq|Hne].
    - exists x. do 2 (split; [done|]). intros ->.
      rewrite Hout in Ht. by injection Ht as <-.
    - destruct (decide (out = t)) as [<-|Hto].
      + rewrite lookup_insert_eq. eexists. split; [done|].
        rewrite Hout in Ht. injection Ht as <-. done.
      + rewrite lookup_insert_ne by done. exists x. by repeat split. }
  destruct (Hres a va Ha) as (va' & Ha' & Hda & _).
  destruct (Hres b vb Hb) as (vb' & Hb' & Hdb & _).
  destruct (Hres out oi Hout) as (oi' & Ho' & _ & Hshape).
  destruct (Hshape eq_refl) as [Hs Hd].
  unfold kernel_written. clear Hres Hshape.
  remember (resized out oi out_size w) as w3 eqn:Hw3. clear Hw3.
  unfold cross_kernel, emit, deref, store, mbind, M_bind. simpl.
  rewrite Ha'. simpl. rewrite Hb'. simpl. rewrite Ho'. simpl.
  by rewrite Hda, Hdb, Hs, Hd.
Qed.

(** ** What linalg_cross_out may change *)

Lemma only_out_refl (out : Tensor) (w : World) : only_out out w w.
Proof.
  repeat split; try done.
  - intros oi Hout. by exists oi.
  - exists []. by rewrite app_nil_r.
Qed.

Lemma only_out_trans (out : Tensor) (w1 w2 w3 : World) :
  only_out out w1 w2 → only_out out w2 w3 → only_out out w1 w3.
Proof.
  intros (Hf1 & Ho1 & Hr1 & evs1 & Ht1) (Hf2 & Ho2 & Hr2 & evs2 & Ht2).
  repeat split.
  - intros t x Hne Ht. by apply Hf2, Hf1.
  - intros oi Hout. destruct (Ho1 oi Hout) as (oi1 & Hout1 & Hd1).
    destruct (Ho2 oi1 Hout1) as (oi2 & Hout2 & Hd2).
    exists oi2. split; [done|congruence].
  - congruence.
  - exists (evs1 ++ evs2). by rewrite Ht2, Ht1, app_assoc.
Qed.

Lemma within_ret {A : Type} (out : Tensor) (a : A) : within (only_out out) (mret a).
Proof. intros w r w' [= <- <-]. apply only_out_refl. Qed.

Lemma within_throw {A : Type} (out : Tensor) (e : Error) :
  within (only_out out) (@throw A e).
Proof. intros w r w' [= <- <-]. apply only_out_refl. Qed.

Lemma within_lift {A : Type} (out : Tensor) (r : Result A) :
  within (only_out out) (lift r).
Proof. destruct r; [apply within_ret | apply within_throw]. Qed.

Lemma within_bind {A B : Type} (out : Tensor) (m : M A) (f : A → M B) :
  within (only_out out) m → (∀ a, within (only_out out) (f a)) →
  within (only_out out) (m ≫= f).
Proof.
  intros Hm Hf w r w' H.
  destruct (bind_inv _ _ _ _ _ H) as [(a & w1 & H1 & H2)|(e & H1 & _)].
  - eapply only_out_trans; [by eapply Hm | by eapply Hf].
  - by eapply Hm.
Qed.

Lemma within_if {A : Type} (out : Tensor) (b : bool) (m1 m2 : M A) :
  within (only_out out) m1 → within (only_out out) m2 →
  within (only_out out) (if b then m1 else m2).
Proof. by destruct b. Qed.

Lemma within_deref (out t : Tensor) : within (only_out out) (deref t).
Proof.
  intros w r w'. unfold deref.
  destruct (heap w !! t); intros [= <- <-]; apply only_out_refl.
Qed.

Lemma within_emit (out : Tensor) (ev : Event) : within (only_out out) (emit ev).
Proof.
  intros w r w' [= <- <-]. split; [|split; [|split]]; simpl.
  - done.
  - intros oi Hout. by exists oi.
  - done.
  - by exists [ev].
Qed.

Lemma within_registered (out : Tensor) (device : DeviceType) :
  within (only_out out) (registered device).
Proof. intros w r w' [= <- <-]. apply only_out_refl. Qed.

Lemma only_out_insert_other (out t : Tensor) (impl : TensorImpl) (w : World) :
  heap w !! t = None →
  only_out out w (mkWorld (<[t := impl]> (heap w)) (registry w) (trace w)).
Proof.
  intros Ht. split; [|split; [|split]]; simpl.
  - intros t' x _ Ht'. rewrite lookup_insert_ne; [done|congruence].
  - intros oi Hout. exists oi. rewrite lookup_insert_ne; [done|congruence].
  - done.
  - exists []. by rewrite app_nil_r.
Qed.

Lemma only_out_insert_out (out : Tensor) (oi impl : TensorImpl) (evs : list Event)
    (w : World) :
  heap w !! out = Some oi → impl_device impl = impl_device oi →
  only_out out w (mkWorld (<[out := impl]> (heap w)) (registry w) (trace w ++ evs)).
Proof.
  intros Hout Hdev. split; [|split; [|split]]; simpl.
  - intros t x Hne Ht. by rewrite lookup_insert_ne.
  - intros oi' Hout'. rewrite Hout in Hout'. injection Hout' as <-.
    exists impl. by rewrite lookup_insert_eq.
  - done.
  - by exists evs.
Qed.

Lemma within_alloc (out : Tensor) (impl : TensorImpl) :
  within (only_out out) (alloc impl).
Proof.
  intros w r w' [= <- <-]. apply only_out_insert_other.
  apply not_elem_of_dom, is_fresh.
Qed.

(** Writing [out] with the device it has. *)
Lemma within_store_out (out : Tensor) (f : TensorImpl → TensorImpl) :
  (∀ impl, impl_device (f impl) = impl_device impl) →
  within (only_out out) (deref out ≫= λ impl, store out (f impl)).
Proof.
  intros Hdev w r w'. rewrite bind_run. unfold deref.
  destruct (heap w !! out) as [impl|] eqn:Hout.
  - intros [= <- <-].
    pose proof (only_out_insert_out out impl (f impl) [] w Hout (Hdev impl)) as H.
    by rewrite app_nil_r in H.
  - intros [= <- <-]. apply only_out_refl.
Qed.

Lemma within_sizes (out t : Tensor) : within (only_out out) (sizes t).
Proof. apply within_bind; [apply within_deref|intros ?; apply within_ret]. Qed.

Lemma within_dim (out t : Tensor) : within (only_out out) (dim t).
Proof. apply within_bind; [apply within_deref|intros ?; apply within_ret]. Qed.

Lemma within_device_type (out t : Tensor) : within (only_out out) (device_type t).
Proof. apply within_bind; [apply within_deref|intros ?; apply within_ret]. Qed.

Lemma within_size (out t : Tensor) (d : Z) : within (only_out out) (size t d).
Proof.
  apply within_bind; [apply within_deref|intros impl].
  apply within_bind; [apply within_lift|intros d'].
  destruct (_ !! _); [apply within_ret | apply within_throw].
Qed.

Lemma within_expand (out t : Tensor) (shape : list Z) :
  within (only_out out) (expand t shape).
Proof.
  apply within_bind; [apply within_deref|intros impl].
  apply within_bind; [apply within_alloc|intros view].
  apply within_bind; [apply within_emit|intros _]. apply within_ret.
Qed.

Lemma within_TORCH_CHECK (out : Tensor) (cond : bool) (e : Error) :
  within (only_out out) (TORCH_CHECK cond e).
Proof. destruct cond; [apply within_ret | apply within_throw]. Qed.

Lemma within_resize_output (out : Tensor) (shape : list Z) :
  within (only_out out) (resize_output out shape).
Proof.
  intros w r w'. destruct (heap w !! out) as [impl|] eqn:Hout.
  - rewrite (resize_output_run _ _ _ _ Hout). intros [= <- <-].
    unfold resized. destruct (decide (impl_sizes impl = shape)).
    + split; [|split; [|split]]; simpl; try done.
      * intros oi Hoi. by exists oi.
      * by eexists.
    + by apply (only_out_insert_out out impl).
  - unfold resize_output. rewrite bind_run, (deref_undefined _ _ Hout).
    intros [= <- <-]. apply only_out_refl.
Qed.

Lemma within_cross_kernel (out a b : Tensor) (d : Z) :
  within (only_out out) (cross_kernel out a b d).
Proof.
  apply within_bind; [apply within_deref|intros ia].
  apply within_bind; [apply within_deref|intros ib].
  apply (within_store_out out
           (λ io, mkImpl (impl_sizes io) (impl_device io)
                         (cross_at (impl_data ia) (impl_data ib) (Z.to_nat d)))).
  done.
Qed.

Lemma within_cross_stub (device : DeviceType) (out a b : Tensor) (d : Z) :
  within (only_out out) (cross_stub device out a b d).
Proof.
  apply within_bind; [apply within_registered|intros known].
  apply within_if; [|apply within_throw].
  apply within_bind; [apply within_emit|intros _]. apply within_cross_kernel.
Qed.

Lemma within_linalg_cross_out (input other : Tensor) (dimension : Z) (out : Tensor) :
  within (only_out out) (linalg_cross_out input other dimension out).
Proof.
  unfold linalg_cross_out.
  apply within_bind; [apply within_device_type|intros device1].
  apply within_bind; [apply within_sizes|intros input_size].
  apply within_bind; [apply within_sizes|intros other_size].
  apply within_bind; [apply within_lift|intros out_size].
  apply within_bind;
    [apply within_if; [apply within_expand | apply within_ret]|intros ib].
  apply within_bind;
    [apply within_if; [apply within_expand | apply within_ret]|intros ob].
  apply within_bind; [apply within_dim|intros input_dim].
  apply within_bind; [apply within_lift|intros d].
  apply within_bind; [apply within_size|intros extent].
  apply within_bind; [apply within_TORCH_CHECK|intros _].
  apply within_bind; [apply within_resize_output|intros _].
  apply within_bind; [apply within_cross_stub|intros _].
  apply within_ret.
Qed.

Lemma within_cross_out (input other : Tensor) (dimension : option Z) (out : Tensor) :
  within (only_out out) (cross_out input other dimension out).
Proof.
  unfold cross_out.
  apply within_bind; [apply within_sizes|intros input_sizes].
  apply within_bind; [apply within_lift|intros d].
  apply within_linalg_cross_out.
Qed.

(** X2: whatever the outcome of linalg_cross_out or cross_out, every tensor
    other than the output is as it was before the call, the output is still
    a tensor on the device it was on, the registry of kernels is as it was
    and the events before the call are all still there, in order. *)
Theorem cross_out_touches_only_out
    (run : M Tensor) (input other : Tensor) (dimension : option Z) (d : Z)
    (out : Tensor) (w w' : World) (r : Result Tensor) :
  run = linalg_cross_out input other d out ∨
  run = cross_out input other dimension out →
  run w = (r, w') →
  (∀ (t : Tensor) (x : TensorImpl),
      t ≠ out → heap w !! t = Some x → heap w' !! t = Some x) ∧
  (∀ oi : TensorImpl, heap w !! out = Some oi →
      ∃ oi', heap w' !! out = Some oi' ∧ impl_device oi' = impl_device oi) ∧
  registry w' = registry w ∧
  ∃ evs : list Event, trace w' = trace w ++ evs.
Proof.
  intros [-> | ->] Hrun.
  - exact (within_linalg_cross_out _ _ _ _ _ _ _ Hrun).
  - exact (within_cross_out _ _ _ _ _ _ _ Hrun).
Qed.

Lemma cross_out_touches_only_out_witness :
  let run := linalg_cross_out 1%nat 0%nat (-1) 2%nat in
  let w' := (run example_world).2 in
  (∀ (t : Tensor) (x : TensorImpl),
      t ≠ 2%nat → heap example_world !! t = Some x → heap w' !! t = Some x) ∧
  (∀ oi : TensorImpl, heap example_world !! 2%nat = Some oi →
      ∃ oi', heap w' !! 2%nat = Some oi' ∧ impl_device oi' = impl_device oi) ∧
  registry w' = registry example_world ∧
  ∃ evs : list Event, trace w' = trace example_world ++ evs.
Proof.
  intros run w'.
  apply (cross_out_touches_only_out run 1%nat 0%nat None (-1) 2%nat
           example_world w' (OK 2%nat)).
  - left. reflexivity.
  - apply run_ok. vm_compute. reflexivity.
Defined.

(** ** The run of linalg_cross_out after its checks *)

Lemma linalg_cross_out_checked (input other : Tensor) (dimension : Z) (out : Tensor)
    (w : World) (ii io oi : TensorImpl) (out_size : list Z) (d : Z) :
  heap w !! input = Some ii → heap w !! other = Some io →
  infer_size (impl_sizes ii) (impl_sizes io) = OK out_size →
  maybe_wrap_dim dimension (Z.of_nat (length (impl_sizes ii))) = OK d →
  out_size !! Z.to_nat d = Some 3 →
  let e1 := expanded input ii out_size w in
  let e2 := expanded other io out_size e1.2 in
  heap e2.2 !! out = Some oi →
  linalg_cross_out input other dimension out w =
  if registry w (impl_device ii)
  then (OK out,
        kernel_written (impl_device ii) out e1.1 e2.1 d out_size (impl_device oi)
          (operand_data ii out_size) (operand_data io out_size)
          (resized out oi out_size e2.2))
  else (Err UnsupportedDevice, resized out oi out_size e2.2).
Proof.
  intros Hin Hot Hinf Hwrap Hext e1 e2 Hout.
  destruct (linalg_cross_out_checks input other dimension out w ii io out_size d
              Hin Hot Hinf Hwrap) as (extent & Hext' & ->).
  rewrite Hext in Hext'. injection Hext' as <-. simpl. fold e1 e2.
  destruct (expanded_data input ii out_size w Hin) as (va & Hva & Hda).
  fold e1 in Hva.
  assert (heap e2.2 !! e1.1 = Some va) as Hva2
    by (eapply lookup_weaken; [exact Hva | apply expanded_grows]).
  destruct (expanded_data other io out_size e1.2) as (vb & Hvb & Hdb).
  { eapply lookup_weaken; [exact Hot | apply expanded_grows]. }
  fold e2 in Hvb.
  rewrite (linalg_cross_out_dispatch _ _ _ _ _ _ _ _ _ _ Hout Hva2 Hvb).
  unfold e2 at 1, e1 at 1. rewrite !expanded_registry. by rewrite Hda, Hdb.
Qed.

Lemma expanded_trace_events t impl out_size w :
  trace (expanded t impl out_size w).2 = trace w ++ expand_events t impl out_size w.
Proof. apply expanded_trace. Qed.

Lemma count_kernels_app (evs1 evs2 : list Event) :
  count_kernels (evs1 ++ evs2) = (count_kernels evs1 + count_kernels evs2)%nat.
Proof. unfold count_kernels. by rewrite List.filter_app, length_app. Qed.

Lemma count_kernels_expand t impl out_size w :
  count_kernels (expand_events t impl out_size w) = 0%nat.
Proof. unfold expand_events. by destruct (decide _). Qed.

Lemma count_kernels_resize_warnings out shape out_size :
  count_kernels (resize_warnings out shape out_size) = 0%nat.
Proof. unfold resize_warnings. by repeat case_match. Qed.

Lemma count_resize_warnings_expand t impl out_size w :
  count_resize_warnings (expand_events t impl out_size w) = 0%nat.
Proof. unfold expand_events. by destruct (decide _). Qed.

Lemma linalg_cross_out_fst
    (input other : Tensor) (dimension : Z) (out : Tensor) (w : World)
    (ii io oi : TensorImpl) :
  heap w !! input = Some ii → heap w !! other = Some io → heap w !! out = Some oi →
  (linalg_cross_out input other dimension out w).1 =
  match infer_size (impl_sizes ii) (impl_sizes io) with
  | Err _ => Err IncompatibleShapes
  | OK out_size =>
      match maybe_wrap_dim dimension (Z.of_nat (length (impl_sizes ii))) with
      | Err _ => Err AxisOutOfRange
      | OK d =>
          if decide (out_size !! Z.to_nat d = Some 3)
          then if registry w (impl_device ii) then OK out else Err UnsupportedDevice
          else Err AxisExtentMismatch
      end
  end.
Proof.
  intros Hin Hot Hout.
  destruct (infer_size _ _) as [out_size|e] eqn:Hinf.
  2:{ rewrite (linalg_cross_out_infer_err _ _ _ _ _ _ _ _ Hin Hot Hinf).
      by destruct (infer_size_err _ _ _ Hinf) as [-> _]. }
  destruct (maybe_wrap_dim _ _) as [d|e] eqn:Hwrap.
  2:{ rewrite (linalg_cross_out_wrap_err _ _ _ _ _ _ _ _ _ Hin Hot Hinf Hwrap).
      by destruct (maybe_wrap_dim_error _ _ _ Hwrap) as [-> _]. }
  destruct (decide (out_size !! Z.to_nat d = Some 3)) as [Hext|Hext].
  - erewrite (linalg_cross_out_checked input other dimension out w ii io oi);
      [|done..|].
    + by destruct (registry w (impl_device ii)).
    + eapply lookup_weaken; [exact Hout|]. etrans; apply expanded_grows.
  - destruct (linalg_cross_out_checks input other dimension out w ii io out_size d
                Hin Hot Hinf Hwrap) as (extent & Hext' & ->).
    destruct (Z.eqb_spec extent 3) as [->|Hne]; [done|done].
Qed.


(** X1: with both inputs tensors, the outcome of linalg_cross_out is decided
    in this order: shapes that do not broadcast give IncompatibleShapes; else
    an axis out of the range of the rank of the first input gives
    AxisOutOfRange; else a broadcast extent other than 3 at the axis gives
    AxisExtentMismatch; else, with the output a tensor, a device type of the
    first input without a kernel gives UnsupportedDevice; else the call
    returns its output. *)
Theorem linalg_cross_out_outcome_order
    (input other : Tensor) (dimension : Z) (out : Tensor) (w : World)
    (ii io oi : TensorImpl) :
  heap w !! input = Some ii → heap w !! other = Some io → heap w !! out = Some oi →
  (linalg_cross_out input other dimension out w).1 =
  match infer_size (impl_sizes ii) (impl_sizes io) with
  | Err _ => Err IncompatibleShapes
  | OK out_size =>
      match maybe_wrap_dim dimension (Z.of_nat (length (impl_sizes ii))) with
      | Err _ => Err AxisOutOfRange
      | OK d =>
          if decide (out_size !! Z.to_nat d = Some 3)
          then if registry w (impl_device ii) then OK out else Err UnsupportedDevice
          else Err AxisExtentMismatch
      end
  end.
Proof. apply linalg_cross_out_fst. Qed.

Lemma linalg_cross_out_outcome_order_witness :
  (linalg_cross_out 0%nat 1%nat 1 2%nat example_world).1 = Err AxisOutOfRange.
Proof.
  apply (linalg_cross_out_outcome_order 0%nat 1%nat 1 2%nat example_world
           (mkImpl [3] CPU (vector [1; 0; 0]))
           (mkImpl [3; 3] CPU (matrix [[0; 1; 0]; [0; 0; 1]; [1; 0; 0]]))
           (mkImpl [4; 3] CPU (matrix [[1; 2; 3]; [4; 5; 6]; [7; 8; 9]; [1; 1; 1]])));
    reflexivity.
Defined.

Lemma expanded_twice_trace (input other : Tensor) (ii io : TensorImpl)
    (out_size : list Z) (w : World) :
  let e1 := expanded input ii out_size w in
  let e2 := expanded other io out_size e1.2 in
  trace e2.2 = trace w ++ expand_events input ii out_size w
                 ++ expand_events other io out_size e1.2.
Proof.
  intros e1 e2. unfold e2. rewrite expanded_trace_events. unfold e1 at 1.
  by rewrite expanded_trace_events, <- app_assoc.
Qed.

Lemma resized_trace (out : Tensor) (oi : TensorImpl) (shape : list Z) (w : World) :
  trace (resized out oi shape w) = trace w ++ resize_warnings out (impl_sizes oi) shape.
Proof. done. Qed.

Lemma shape_of_resized (out : Tensor) (oi : TensorImpl) (shape : list Z) (w : World) :
  heap w !! out = Some oi → shape_of (resized out oi shape w) out = Some shape.
Proof.
  intros Hout. unfold shape_of, resized. simpl.
  destruct (decide (impl_sizes oi = shape)) as [<-|Hne].
  - by rewrite Hout.
  - by rewrite lookup_insert_eq.
Qed.

(** X3: a call that passes every check but finds no kernel for the device
    type of its first input fails with UnsupportedDevice after the output has
    been resized: the output has the broadcast shape although the call
    failed, and the discard warning has been emitted if the output had one or
    more elements and another shape. *)
Theorem linalg_cross_out_unsupported_after_resize
    (input other : Tensor) (dimension : Z) (out : Tensor) (w : World)
    (ii io oi : TensorImpl) (out_size : list Z) (d : Z) :
  heap w !! input = Some ii → heap w !! other = Some io → heap w !! out = Some oi →
  infer_size (impl_sizes ii) (impl_sizes io) = OK out_size →
  maybe_wrap_dim dimension (Z.of_nat (length (impl_sizes ii))) = OK d →
  out_size !! Z.to_nat d = Some 3 →
  registry w (impl_device ii) = false →
  let run := linalg_cross_out input other dimension out w in
  run.1 = Err UnsupportedDevice ∧
  shape_of run.2 out = Some out_size ∧
  ∃ evs, trace run.2 = trace w ++ evs ∧
    count_kernels evs = 0%nat ∧
    count_resize_warnings evs =
    if decide (numel (impl_sizes oi) ≠ 0 ∧ impl_sizes oi ≠ out_size)
    then 1%nat else 0%nat.
Proof.
  intros Hin Hot Hout Hinf Hwrap Hext Hreg run. subst run.
  assert (heap (expanded other io out_size (expanded input ii out_size w).2).2 !! out
          = Some oi) as Hout2.
  { eapply lookup_weaken; [exact Hout|]. etrans; apply expanded_grows. }
  rewrite (linalg_cross_out_checked input other dimension out w ii io oi out_size d
             Hin Hot Hinf Hwrap Hext Hout2), Hreg. simpl.
  split; [done|]. split; [by apply shape_of_resized|].
  eexists. split.
  { rewrite expanded_twice_trace, <- !app_assoc. reflexivity. }
  rewrite !count_kernels_app, !count_resize_warnings_app,
    !count_kernels_expand, !count_resize_warnings_expand,
    count_kernels_resize_warnings.
  split; [done|]. unfold resize_warnings.
  destruct (decide (impl_sizes oi = out_size)),
    (Z.eqb_spec (numel (impl_sizes oi)) 0);
    simpl; case_decide; try reflexivity; intuition congruence.
Qed.

Lemma linalg_cross_out_unsupported_after_resize_witness :
  let w := mkWorld (heap example_world) (λ _, false) [] in
  let run := linalg_cross_out 1%nat 0%nat (-1) 2%nat w in
  run.1 = Err UnsupportedDevice ∧
  shape_of run.2 2%nat = Some [3; 3] ∧
  ∃ evs, trace run.2 = trace w ++ evs ∧
    count_kernels evs = 0%nat ∧
    count_resize_warnings evs =
    if decide (numel [4; 3] ≠ 0 ∧ [4; 3] ≠ [3; 3]) then 1%nat else 0%nat.
Proof.
  intros w.
  apply (linalg_cross_out_unsupported_after_resize 1%nat 0%nat (-1) 2%nat w
           (mkImpl [3; 3] CPU (matrix [[0; 1; 0]; [0; 0; 1]; [1; 0; 0]]))
           (mkImpl [3] CPU (vector [1; 0; 0]))
           (mkImpl [4; 3] CPU (matrix [[1; 2; 3]; [4; 5; 6]; [7; 8; 9]; [1; 1; 1]]))
           [3; 3] 1); reflexivity.
Defined.

Lemma linalg_cross_out_events
    (input other : Tensor) (dimension : Z) (out : Tensor) (w : World) :
  let run := linalg_cross_out input other dimension out w in
  run.1 ≠ Err NoSuitableAxis ∧
  ∃ evs, trace run.2 = trace w ++ evs ∧
    count_kernels evs = match run.1 with OK _ => 1%nat | Err _ => 0%nat end.
Proof.
  intros run. subst run.
  destruct (heap w !! input) as [ii|] eqn:Hin.
  2:{ rewrite linalg_cross_out_undefined_input by done.
      split; [done|]. exists []. by rewrite app_nil_r. }
  destruct (heap w !! other) as [io|] eqn:Hot.
  2:{ erewrite linalg_cross_out_undefined_other by done.
      split; [done|]. exists []. by rewrite app_nil_r. }
  destruct (infer_size (impl_sizes ii) (impl_sizes io)) as [out_size|e] eqn:Hinf.
  2:{ rewrite (linalg_cross_out_infer_err _ _ _ _ _ _ _ _ Hin Hot Hinf).
      destruct (infer_size_err _ _ _ Hinf) as [-> _].
      split; [done|]. exists []. by rewrite app_nil_r. }
  destruct (maybe_wrap_dim dimension (Z.of_nat (length (impl_sizes ii))))
    as [d|e] eqn:Hwrap.
  2:{ rewrite (linalg_cross_out_wrap_err _ _ _ _ _ _ _ _ _ Hin Hot Hinf Hwrap).
      destruct (maybe_wrap_dim_error _ _ _ Hwrap) as [-> _].
      simpl. split; [done|]. eexists. split; [apply expanded_twice_trace|].
      by rewrite count_kernels_app, !count_kernels_expand. }
  destruct (linalg_cross_out_checks input other dimension out w ii io out_size d
              Hin Hot Hinf Hwrap) as (extent & Hext & Hrun).
  set (e1 := expanded input ii out_size w) in *.
  set (e2 := expanded other io out_size e1.2) in *.
  destruct (Z.eqb_spec extent 3) as [->|Hne].
  2:{ rewrite Hrun. simpl. subst e2 e1. split; [done|].
      eexists. split; [apply expanded_twice_trace|].
      by rewrite count_kernels_app, !count_kernels_expand. }
  clear Hrun.
  destruct (heap e2.2 !! out) as [oi|] eqn:Hout.
  - rewrite (linalg_cross_out_checked input other dimension out w ii io oi out_size d
               Hin Hot Hinf Hwrap Hext Hout).
    subst e2 e1. destruct (registry w (impl_device ii)); simpl.
    + split; [done|]. eexists. split.
      { rewrite expanded_twice_trace, <- !app_assoc. reflexivity. }
      by rewrite !count_kernels_app, !count_kernels_expand,
        count_kernels_resize_warnings.
    + split; [done|]. eexists. split.
      { rewrite expanded_twice_trace, <- !app_assoc. reflexivity. }
      by rewrite !count_kernels_app, !count_kernels_expand,
        count_kernels_resize_warnings.
  - destruct (linalg_cross_out_checks input other dimension out w ii io out_size d
                Hin Hot Hinf Hwrap) as (extent & Hext' & ->).
    rewrite Hext in Hext'. injection Hext' as <-. simpl. fold e1 e2.
    unfold resize_output. rewrite !bind_run, (deref_undefined _ _ Hout). simpl.
    subst e2 e1. split; [done|].
    eexists. split; [apply expanded_twice_trace|].
    by rewrite count_kernels_app, !count_kernels_expand.
Qed.

(** X4: the kernel is dispatched exactly once by a call of linalg_cross_out
    that succeeds and never by a call that fails, whichever the failure. *)
Theorem linalg_cross_out_kernel_once
    (input other : Tensor) (dimension : Z) (out : Tensor) (w : World) :
  let run := linalg_cross_out input other dimension out w in
  ∃ evs, trace run.2 = trace w ++ evs ∧
    count_kernels evs = match run.1 with OK _ => 1%nat | Err _ => 0%nat end.
Proof. apply linalg_cross_out_events. Qed.




(** ** The axis and the rank of the first input *)

(** X6: linalg_cross_out checks the axis against the rank of its first input
    only.  With inputs that broadcast and a first input of rank 1 or more,
    every axis outside [-rank, rank) of the first input is rejected with
    AxisOutOfRange, even an axis of the broadcast shape; nothing has been
    resized or dispatched then and every tensor is as it was. *)
Theorem linalg_cross_out_axis_out_of_first_input
    (input other : Tensor) (dimension : Z) (out : Tensor) (w : World)
    (ii io : TensorImpl) (out_size : list Z) :
  heap w !! input = Some ii → heap w !! other = Some io →
  infer_size (impl_sizes ii) (impl_sizes io) = OK out_size →
  (0 < length (impl_sizes ii))%nat →
  dimension < - Z.of_nat (length (impl_sizes ii)) ∨
  Z.of_nat (length (impl_sizes ii)) ≤ dimension →
  let run := linalg_cross_out input other dimension out w in
  run.1 = Err AxisOutOfRange ∧ heap w ⊆ heap run.2 ∧
  ∃ evs, trace run.2 = trace w ++ evs ∧
         count_kernels evs = 0%nat ∧ count_resize_warnings evs = 0%nat.
Proof.
  intros Hin Hot Hinf Hrank Hdim run. subst run.
  assert (maybe_wrap_dim dimension (Z.of_nat (length (impl_sizes ii)))
          = Err AxisOutOfRange) as Hwrap.
  { unfold maybe_wrap_dim.
    destruct (Z.leb_spec (- Z.of_nat (length (impl_sizes ii))) dimension),
      (Z.ltb_spec dimension (Z.of_nat (length (impl_sizes ii)))); simpl;
      try done; lia. }
  rewrite (linalg_cross_out_wrap_err _ _ _ _ _ _ _ _ _ Hin Hot Hinf Hwrap). simpl.
  split; [done|]. split; [etrans; apply expanded_grows|].
  eexists. split; [apply expanded_twice_trace|].
  by rewrite count_kernels_app, count_resize_warnings_app, !count_kernels_expand,
    !count_resize_warnings_expand.
Qed.

Lemma linalg_cross_out_axis_out_of_first_input_witness :
  let run := linalg_cross_out 0%nat 1%nat 1 2%nat example_world in
  run.1 = Err AxisOutOfRange ∧ heap example_world ⊆ heap run.2 ∧
  ∃ evs, trace run.2 = trace example_world ++ evs ∧
         count_kernels evs = 0%nat ∧ count_resize_warnings evs = 0%nat.
Proof.
  apply (linalg_cross_out_axis_out_of_first_input 0%nat 1%nat 1 2%nat example_world
           (mkImpl [3] CPU (vector [1; 0; 0]))
           (mkImpl [3; 3] CPU (matrix [[0; 1; 0]; [0; 0; 1]; [1; 0; 0]]))
           [3; 3]); [reflexivity|reflexivity|reflexivity|simpl; lia|right; simpl; lia].
Defined.

(** ** linalg_cross and cross: the output is new *)

Lemma linalg_cross_run (input other : Tensor) (dimension : Z) (w : World)
    (ii : TensorImpl) :
  heap w !! input = Some ii →
  linalg_cross input other dimension w =
  match linalg_cross_out input other dimension (fresh (dom (heap w)))
          (with_empty_output (impl_device ii) w) with
  | (OK _, w') => (OK (fresh (dom (heap w))), w')
  | (Err e, w') => (Err e, w')
  end.
Proof.
  intros Hin. unfold linalg_cross.
  rewrite bind_run, (device_type_run _ _ _ Hin), bind_run.
  unfold at_empty, alloc. simpl. rewrite bind_run. reflexivity.
Qed.

Lemma with_empty_output_grows (device : DeviceType) (w : World) :
  heap w ⊆ heap (with_empty_output device w).
Proof. apply insert_subseteq, not_elem_of_dom, is_fresh. Qed.

Lemma with_empty_output_lookup (device : DeviceType) (w : World) :
  heap (with_empty_output device w) !! fresh (dom (heap w))
  = Some (mkImpl [0] device (λ _, 0)).
Proof. unfold with_empty_output. simpl. by rewrite lookup_insert_eq. Qed.

Lemma linalg_cross_grows (input other : Tensor) (dimension : Z) :
  ∀ w r w', linalg_cross input other dimension w = (r, w') →
            heap w ⊆ heap w' ∧ registry w' = registry w.
Proof.
  intros w r w'. destruct (heap w !! input) as [ii|] eqn:Hin.
  - rewrite (linalg_cross_run _ _ _ _ _ Hin).
    destruct (linalg_cross_out _ _ _ _ _) as [r0 w1] eqn:Hrun.
    destruct (within_linalg_cross_out _ _ _ _ _ _ _ Hrun) as (Hframe & _ & Hreg & _).
    assert (heap w ⊆ heap w1 ∧ registry w1 = registry w) as Hgoal.
    { split; [|done]. apply map_subseteq_spec. intros t x Ht. apply Hframe.
      - intros ->. apply (is_fresh (dom (heap w))). by apply elem_of_dom_2 in Ht.
      - by eapply lookup_weaken, with_empty_output_grows. }
    by destruct r0; intros [= <- <-].
  - unfold linalg_cross, device_type.
    rewrite !bind_run, (deref_undefined _ _ Hin). by intros [= <- <-].
Qed.

(** X7: cross and linalg_cross never modify a tensor of the caller: whatever
    the outcome, every tensor that was in the store is there as it was, and
    the registry of kernels is as it was. *)
Theorem cross_never_modifies_a_tensor
    (run : M Tensor) (input other : Tensor) (dimension : option Z) (d : Z)
    (w w' : World) (r : Result Tensor) :
  run = linalg_cross input other d ∨ run = cross input other dimension →
  run w = (r, w') →
  (∀ (t : Tensor) (x : TensorImpl), heap w !! t = Some x → heap w' !! t = Some x) ∧
  registry w' = registry w.
Proof.
  intros Hwhich Hrun.
  assert (heap w ⊆ heap w' ∧ registry w' = registry w) as [Hsub Hreg].
  { destruct Hwhich as [-> | ->]; [by eapply linalg_cross_grows|].
    revert Hrun. unfold cross. rewrite bind_run.
    destruct (heap w !! input) as [ii|] eqn:Hin.
    - rewrite (sizes_run _ _ _ Hin), bind_run, lift_run.
      destruct (_default_cross_dim _ _) as [d'|e].
      + apply linalg_cross_grows.
      + by intros [= <- <-].
    - unfold sizes. rewrite bind_run, (deref_undefined _ _ Hin). by intros [= <- <-]. }
  split; [|done]. intros t x Ht. by eapply lookup_weaken.
Qed.

Lemma cross_never_modifies_a_tensor_witness :
  let run := cross 1%nat 0%nat None in
  let w' := (run example_world).2 in
  (∀ (t : Tensor) (x : TensorImpl),
      heap example_world !! t = Some x → heap w' !! t = Some x) ∧
  registry w' = registry example_world.
Proof.
  intros run w'.
  apply (cross_never_modifies_a_tensor run 1%nat 0%nat None 0 example_world w'
           (OK 4%nat)).
  - right. reflexivity.
  - apply run_ok. vm_compute. reflexivity.
Defined.

Lemma linalg_cross_checked (input other : Tensor) (dimension : Z) (w : World)
    (ii io : TensorImpl) (out_size : list Z) (d : Z) :
  heap w !! input = Some ii → heap w !! other = Some io →
  infer_size (impl_sizes ii) (impl_sizes io) = OK out_size →
  maybe_wrap_dim dimension (Z.of_nat (length (impl_sizes ii))) = OK d →
  out_size !! Z.to_nat d = Some 3 →
  registry w (impl_device ii) = true →
  let out := fresh (dom (heap w)) in
  let w0 := with_empty_output (impl_device ii) w in
  let e1 := expanded input ii out_size w0 in
  let e2 := expanded other io out_size e1.2 in
  linalg_cross input other dimension w =
  (OK out,
   kernel_written (impl_device ii) out e1.1 e2.1 d out_size (impl_device ii)
     (operand_data ii out_size) (operand_data io out_size)
     (resized out (mkImpl [0] (impl_device ii) (λ _, 0)) out_size e2.2)).
Proof.
  intros Hin Hot Hinf Hwrap Hext Hreg out w0 e1 e2.
  rewrite (linalg_cross_run _ _ _ _ _ Hin). fold out w0.
  rewrite (linalg_cross_out_checked input other dimension out w0 ii io
             (mkImpl [0] (impl_device ii) (λ _, 0)) out_size d); try done.
  - fold e1 e2. change (registry w0) with (registry w). by rewrite Hreg.
  - by eapply lookup_weaken, with_empty_output_grows.
  - by eapply lookup_weaken, with_empty_output_grows.
  - eapply lookup_weaken; [apply with_empty_output_lookup|].
    etrans; apply expanded_grows.
Qed.

Lemma resize_warnings_empty (out : Tensor) (out_size : list Z) :
  resize_warnings out [0] out_size = [].
Proof. unfold resize_warnings. by destruct (decide _). Qed.

(** X8: the result of a successful linalg_cross is a tensor that was not in
    the store, on the device of the first input, with the broadcast shape
    and the cross product of the operands as elements; the call has
    dispatched one kernel and emitted no discard warning. *)
Theorem linalg_cross_result_is_new
    (input other : Tensor) (dimension : Z) (w w' : World) (r : Tensor)
    (ii io : TensorImpl) :
  heap w !! input = Some ii → heap w !! other = Some io →
  linalg_cross input other dimension w = (OK r, w') →
  ∃ (out_size : list Z) (d : Z),
    infer_size (impl_sizes ii) (impl_sizes io) = OK out_size ∧
    maybe_wrap_dim dimension (Z.of_nat (length (impl_sizes ii))) = OK d ∧
    heap w !! r = None ∧
    heap w' !! r =
      Some (mkImpl out_size (impl_device ii)
              (cross_at (operand_data ii out_size) (operand_data io out_size)
                        (Z.to_nat d))) ∧
    ∃ evs, trace w' = trace w ++ evs ∧
           count_kernels evs = 1%nat ∧ count_resize_warnings evs = 0%nat.
Proof.
  intros Hin Hot Hrun.
  destruct (linalg_cross_ok _ _ _ _ _ _ _ _ Hin Hot Hrun)
    as (out_size & d & Hinf & Hwrap & Hext & Hreg & -> & Hout).
  exists out_size, d. do 2 (split; [done|]).
  split; [apply not_elem_of_dom, is_fresh|]. split; [done|].
  rewrite (linalg_cross_checked input other dimension w ii io out_size d
             Hin Hot Hinf Hwrap Hext Hreg) in Hrun.
  injection Hrun as <-. unfold kernel_written. simpl.
  rewrite resize_warnings_empty, app_nil_r, expanded_twice_trace. simpl.
  eexists. split; [by rewrite <- !app_assoc|].
  by rewrite !count_kernels_app, !count_resize_warnings_app, !count_kernels_expand,
    !count_resize_warnings_expand.
Qed.

Lemma linalg_cross_result_is_new_witness :
  let w' := (linalg_cross 0%nat 1%nat (-1) rows_world).2 in
  let ii := mkImpl [2; 3] CPU (matrix [[1; 2; 3]; [4; 5; 6]]) in
  let io := mkImpl [1; 3] CPU (matrix [[7; 8; 9]]) in
  ∃ (out_size : list Z) (d : Z),
    infer_size (impl_sizes ii) (impl_sizes io) = OK out_size ∧
    maybe_wrap_dim (-1) (Z.of_nat (length (impl_sizes ii))) = OK d ∧
    heap rows_world !! 2%nat = None ∧
    heap w' !! 2%nat =
      Some (mkImpl out_size (impl_device ii)
              (cross_at (operand_data ii out_size) (operand_data io out_size)
                        (Z.to_nat d))) ∧
    ∃ evs, trace w' = trace rows_world ++ evs ∧
           count_kernels evs = 1%nat ∧ count_resize_warnings evs = 0%nat.
Proof.
  intros w' ii io.
  apply (linalg_cross_result_is_new 0%nat 1%nat (-1) rows_world w' 2%nat ii io);
    [reflexivity|reflexivity|].
  apply run_ok. vm_compute. reflexivity.
Defined.

(** ** cross with the default axis *)

Lemma aligned_lookup (shape : list Z) (k : nat) (x : Z) :
  shape !! k = Some x → aligned shape (length shape - 1 - k) = x.
Proof.
  intros Hk. pose proof (lookup_lt_Some _ _ _ Hk) as Hlt.
  unfold aligned. rewrite reverse_lookup by lia.
  replace (length shape - S (length shape - 1 - k))%nat with k by lia.
  by rewrite Hk.
Qed.

Lemma infer_size_keeps_3 (a b s : list Z) (k : nat) :
  infer_size a b = OK s → (length b ≤ length a)%nat →
  a !! k = Some 3 → s !! k = Some 3.
Proof.
  intros Hinf Hrank Hk.
  destruct (infer_size_ok _ _ _ Hinf) as (Hlen & Hc & Hmax).
  rewrite Nat.max_l in Hlen by done.
  pose proof (lookup_lt_Some _ _ _ Hk) as Hlt.
  destruct (lookup_lt_is_Some_2 s k) as [y Hy]; [lia|].
  rewrite Hy. f_equal.
  apply aligned_lookup in Hy. apply aligned_lookup in Hk.
  rewrite Hlen in Hy.
  specialize (Hmax (length a - 1 - k)%nat).
  specialize (Hc (length a - 1 - k)%nat).
  rewrite Hy, Hk in Hmax. rewrite Hk in Hc. lia.
Qed.

(** X9: cross with no axis given, for a first input with a dimension of
    extent 3, a second input of no higher rank that broadcasts with it and a
    kernel for the device type of the first input, succeeds: the kernel runs
    along the first dimension of extent 3 of the first input, and the result
    is a new tensor with the broadcast shape. *)
Theorem cross_default_axis_succeeds
    (input other : Tensor) (w : World) (ii io : TensorImpl) (k : nat) :
  heap w !! input = Some ii → heap w !! other = Some io →
  (length (impl_sizes io) ≤ length (impl_sizes ii))%nat →
  broadcast_compatible (impl_sizes ii) (impl_sizes io) →
  impl_sizes ii !! k = Some 3 →
  (∀ j : nat, (j < k)%nat → impl_sizes ii !! j ≠ Some 3) →
  registry w (impl_device ii) = true →
  let run := cross input other None w in
  ∃ (out_size : list Z) (a b : Tensor),
    infer_size (impl_sizes ii) (impl_sizes io) = OK out_size ∧
    run.1 = OK (fresh (dom (heap w))) ∧
    shape_of run.2 (fresh (dom (heap w))) = Some out_size ∧
    last (trace run.2) =
      Some (EvKernel (impl_device ii) (fresh (dom (heap w))) a b (Z.of_nat k)).
Proof.
  intros Hin Hot Hrank Hc Hk Hfirst Hreg run. subst run.
  destruct (infer_size (impl_sizes ii) (impl_sizes io)) as [out_size|e] eqn:Hinf.
  2:{ by destruct (infer_size_err _ _ _ Hinf) as [_ Hnc]. }
  pose proof (lookup_lt_Some _ _ _ Hk) as Hlt.
  assert (maybe_wrap_dim (Z.of_nat k) (Z.of_nat (length (impl_sizes ii)))
          = OK (Z.of_nat k)) as Hwrap by (apply maybe_wrap_dim_id; lia).
  assert (out_size !! Z.to_nat (Z.of_nat k) = Some 3) as Hext.
  { rewrite Nat2Z.id. by eapply infer_size_keeps_3. }
  unfold cross.
  rewrite bind_run, (sizes_run _ _ _ Hin), bind_run, lift_run.
  unfold _default_cross_dim.
  rewrite (first_size3_found _ 0 k Hk Hfirst).
  change (0 + Z.of_nat k) with (Z.of_nat k). cbv beta iota.
  rewrite (linalg_cross_checked input other (Z.of_nat k) w ii io out_size
             (Z.of_nat k) Hin Hot Hinf Hwrap Hext Hreg).
  exists out_size. do 2 eexists. split; [done|]. split; [done|].
  unfold kernel_written, shape_of. simpl.
  split; [by rewrite lookup_insert_eq|]. by rewrite last_snoc.
Qed.

Lemma cross_default_axis_succeeds_witness :
  let run := cross 0%nat 1%nat None rows_world in
  ∃ (out_size : list Z) (a b : Tensor),
    infer_size [2; 3] [1; 3] = OK out_size ∧
    run.1 = OK (fresh (dom (heap rows_world))) ∧
    shape_of run.2 (fresh (dom (heap rows_world))) = Some out_size ∧
    last (trace run.2) =
      Some (EvKernel CPU (fresh (dom (heap rows_world))) a b (Z.of_nat 1)).
Proof.
  apply (cross_default_axis_succeeds 0%nat 1%nat rows_world
           (mkImpl [2; 3] CPU (matrix [[1; 2; 3]; [4; 5; 6]]))
           (mkImpl [1; 3] CPU (matrix [[7; 8; 9]])) 1%nat).
  - reflexivity.
  - reflexivity.
  - simpl. lia.
  - intros [|[|k]]; vm_compute; auto.
  - reflexivity.
  - intros [|j] Hj; [discriminate|lia].
  - reflexivity.
Defined.

(** ** Swapping inputs of equal rank *)

Lemma linalg_cross_fst (input other : Tensor) (dimension : Z) (w : World)
    (ii io : TensorImpl) :
  heap w !! input = Some ii → heap w !! other = Some io →
  (linalg_cross input other dimension w).1 =
  match infer_size (impl_sizes ii) (impl_sizes io) with
  | Err _ => Err IncompatibleShapes
  | OK out_size =>
      match maybe_wrap_dim dimension (Z.of_nat (length (impl_sizes ii))) with
      | Err _ => Err AxisOutOfRange
      | OK d =>
          if decide (out_size !! Z.to_nat d = Some 3)
          then if registry w (impl_device ii)
               then OK (fresh (dom (heap w))) else Err UnsupportedDevice
          else Err AxisExtentMismatch
      end
  end.
Proof.
  intros Hin Hot. rewrite (linalg_cross_run _ _ _ _ _ Hin).
  pose proof (linalg_cross_out_fst input other dimension (fresh (dom (heap w)))
                (with_empty_output (impl_device ii) w) ii io
                (mkImpl [0] (impl_device ii) (λ _, 0))) as Hfst.
  destruct (linalg_cross_out _ _ _ _ _) as [r0 w1]. simpl in Hfst.
  rewrite Hfst; clear Hfst.
  - destruct (infer_size _ _) as [out_size|e]; [|done].
    destruct (maybe_wrap_dim _ _) as [d|e]; [|done].
    destruct (decide _); [|done]. by destruct (registry w (impl_device ii)).
  - by eapply lookup_weaken, with_empty_output_grows.
  - by eapply lookup_weaken, with_empty_output_grows.
  - apply with_empty_output_lookup.
Qed.

(** X10: for two inputs of the same rank on the same device type,
    linalg_cross a b and linalg_cross b a have the same outcome (the same
    error, or both succeed), and when they succeed the results have the same
    shape and every element of the first is the negation of the element of
    the second. *)
Theorem linalg_cross_swap_same_rank
    (a b : Tensor) (dimension : Z) (w : World) (ia ib : TensorImpl) :
  heap w !! a = Some ia → heap w !! b = Some ib →
  length (impl_sizes ia) = length (impl_sizes ib) →
  impl_device ia = impl_device ib →
  let ab := linalg_cross a b dimension w in
  let ba := linalg_cross b a dimension w in
  ab.1 = ba.1 ∧
  ∀ out, ab.1 = OK out →
    is_Some (shape_of ab.2 out) ∧
    shape_of ab.2 out = shape_of ba.2 out ∧
    ∀ idx, element ab.2 out idx = neg64 <$> element ba.2 out idx.
Proof.
  intros Ha Hb Hrank Hdev ab ba. subst ab ba.
  assert ((linalg_cross a b dimension w).1 = (linalg_cross b a dimension w).1) as Hfst.
  { rewrite (linalg_cross_fst _ _ _ _ _ _ Ha Hb), (linalg_cross_fst _ _ _ _ _ _ Hb Ha).
    by rewrite (infer_size_comm (impl_sizes ib)), Hrank, Hdev. }
  split; [done|]. intros out Hout.
  pose proof (run_ok _ _ _ Hout) as Hab.
  destruct (linalg_cross_anticommutative_same_rank a b dimension w _ out ia ib
              Ha Hb Hrank Hdev Hab) as (out2 & w2 & Hba & Hsome & Hshape & Helem).
  rewrite Hfst, Hba in Hout. simpl in Hout. injection Hout as ->.
  rewrite Hba. done.
Qed.

Lemma linalg_cross_swap_same_rank_witness :
  let ab := linalg_cross 0%nat 1%nat (-1) rows_world in
  let ba := linalg_cross 1%nat 0%nat (-1) rows_world in
  ab.1 = ba.1 ∧
  ∀ out, ab.1 = OK out →
    is_Some (shape_of ab.2 out) ∧
    shape_of ab.2 out = shape_of ba.2 out ∧
    ∀ idx, element ab.2 out idx = neg64 <$> element ba.2 out idx.
Proof.
  apply (linalg_cross_swap_same_rank 0%nat 1%nat (-1) rows_world
           (mkImpl [2; 3] CPU (matrix [[1; 2; 3]; [4; 5; 6]]))
           (mkImpl [1; 3] CPU (matrix [[7; 8; 9]]))); reflexivity.
Defined.

(** ** cross_out rejects before it changes anything *)

(** X11: when cross_out fails with NoSuitableAxis, IncompatibleShapes, an
    axis out of range or AxisExtentMismatch, every tensor of the caller, the
    output among them, is as it was before the call; NoSuitableAxis comes
    only with no axis given, from a world left exactly as it was. *)
Theorem cross_out_error_leaves_tensors
    (input other : Tensor) (dimension : option Z) (out : Tensor)
    (w w' : World) (e : Error) :
  cross_out input other dimension out w = (Err e, w') →
  e = NoSuitableAxis ∨ e = IncompatibleShapes ∨ e = AxisOutOfRange ∨
  e = AxisExtentMismatch →
  (∀ (t : Tensor) (x : TensorImpl), heap w !! t = Some x → heap w' !! t = Some x) ∧
  (e = NoSuitableAxis → w' = w ∧ dimension = None).
Proof.
  unfold cross_out. rewrite bind_run.
  destruct (heap w !! input) as [ii|] eqn:Hin.
  2:{ unfold sizes. rewrite bind_run, (deref_undefined _ _ Hin).
      intros [= <- <-] [?|[?|[?|?]]]; done. }
  rewrite (sizes_run _ _ _ Hin), bind_run, lift_run.
  destruct (_default_cross_dim dimension (impl_sizes ii)) as [d|e'] eqn:Hdim.
  - intros Hrun He.
    pose proof (linalg_cross_out_events input other d out w) as [Hno _].
    rewrite Hrun in Hno. simpl in Hno.
    assert (validation_error e) as Hval.
    { destruct He as [->|He]; [done|exact He]. }
    split.
    + intros t x Ht. eapply lookup_weaken; [exact Ht|].
      by eapply linalg_cross_out_atomic.
    + intros ->. done.
  - intros [= <- <-] _. split; [done|]. intros _. split; [done|].
    by destruct dimension.
Qed.

Lemma cross_out_error_leaves_tensors_witness :
  let w' := (cross_out 3%nat 2%nat None 1%nat example_world).2 in
  (∀ (t : Tensor) (x : TensorImpl),
      heap example_world !! t = Some x → heap w' !! t = Some x) ∧
  (IncompatibleShapes = NoSuitableAxis → w' = example_world ∧ None = @None Z).
Proof.
  intros w'.
  apply (cross_out_error_leaves_tensors 3%nat 2%nat None 1%nat example_world w'
           IncompatibleShapes).
  - apply run_err. vm_compute. reflexivity.
  - right. left. reflexivity.
Defined.

(** ** Calling again into the same output *)

Lemma kernel_written_lookup_ne device out a b d shape dev da db w (t : Tensor) :
  t ≠ out →
  heap (kernel_written device out a b d shape dev da db w) !! t = heap w !! t.
Proof. intros Hne. unfold kernel_written. simpl. by rewrite lookup_insert_ne. Qed.

Lemma resized_lookup_ne (out : Tensor) (oi : TensorImpl) (shape : list Z) (w : World)
    (t : Tensor) :
  t ≠ out → heap (resized out oi shape w) !! t = heap w !! t.
Proof.
  intros Hne. unfold resized. simpl. destruct (decide _); [done|].
  by rewrite lookup_insert_ne.
Qed.

(** X12: a successful linalg_cross_out can be repeated into the same output
    (an output that is neither input): the second call succeeds, leaves the
    output exactly as the first call left it and emits no discard warning,
    the output having the broadcast shape already. *)
Theorem linalg_cross_out_again
    (input other : Tensor) (dimension : Z) (out : Tensor) (w w1 : World) (r : Tensor) :
  linalg_cross_out input other dimension out w = (OK r, w1) →
  input ≠ out → other ≠ out →
  let again := linalg_cross_out input other dimension out w1 in
  again.1 = OK out ∧
  heap again.2 !! out = heap w1 !! out ∧
  ∃ evs, trace again.2 = trace w1 ++ evs ∧
         count_resize_warnings evs = 0%nat ∧ count_kernels evs = 1%nat.
Proof.
  intros Hrun Hio Hoo again. subst again.
  destruct (linalg_cross_out_ok _ _ _ _ _ _ _ Hrun)
    as (ii & io & oi & out_size & d & Hin & Hot & Hinf & Hwrap & Hext & _ & Hrest).
  simpl in Hrest. destruct Hrest as (Hout & Hreg & _).
  rewrite (linalg_cross_out_checked input other dimension out w ii io oi out_size d
             Hin Hot Hinf Hwrap Hext Hout), Hreg in Hrun.
  injection Hrun as Hw1. subst w1.
  set (w1 := kernel_written _ _ _ _ _ _ _ _ _ _).
  assert (∀ t x, t ≠ out → heap w !! t = Some x → heap w1 !! t = Some x) as Hkeep.
  { intros t x Hne Ht. unfold w1.
    rewrite kernel_written_lookup_ne, resized_lookup_ne by done.
    eapply lookup_weaken; [exact Ht|]. etrans; apply expanded_grows. }
  assert (heap w1 !! out =
          Some (mkImpl out_size (impl_device oi)
                  (cross_at (operand_data ii out_size) (operand_data io out_size)
                            (Z.to_nat d)))) as Hout1.
  { unfold w1, kernel_written. simpl. by rewrite lookup_insert_eq. }
  assert (registry w1 (impl_device ii) = true) as Hreg1.
  { unfold w1, kernel_written, resized. simpl. by rewrite !expanded_registry. }
  erewrite (linalg_cross_out_checked input other dimension out w1 ii io _ out_size d);
    [|by apply Hkeep|by apply Hkeep|done|done|done|].
  2:{ eapply lookup_weaken; [exact Hout1|]. etrans; apply expanded_grows. }
  rewrite Hreg1. clearbody w1. unfold kernel_written. simpl. split; [done|].
  split; [by rewrite lookup_insert_eq, Hout1|].
  unfold resize_warnings. rewrite decide_True by done.
  rewrite app_nil_r, expanded_twice_trace.
  eexists. split; [by rewrite <- !app_assoc|].
  by rewrite !count_kernels_app, !count_resize_warnings_app, !count_kernels_expand,
    !count_resize_warnings_expand.
Qed.

Lemma linalg_cross_out_again_witness :
  let w1 := (linalg_cross_out 1%nat 0%nat (-1) 2%nat example_world).2 in
  let again := linalg_cross_out 1%nat 0%nat (-1) 2%nat w1 in
  again.1 = OK 2%nat ∧
  heap again.2 !! 2%nat = heap w1 !! 2%nat ∧
  ∃ evs, trace again.2 = trace w1 ++ evs ∧
         count_resize_warnings evs = 0%nat ∧ count_kernels evs = 1%nat.
Proof.
  intros w1.
  apply (linalg_cross_out_again 1%nat 0%nat (-1) 2%nat example_world w1 2%nat);
    [|lia|lia].
  apply run_ok. vm_compute. reflexivity.
Defined.
